(** * Flagg: the flag resolver of [src/core/index.ts]

    A shallow embedding of the resolution and storage engine of the
    feature-flag library, and the properties of its public surface
    ([get], [set], [getDefault], [isOn], [isOverridden], hydration).

    Conventions of the embedding.
    - JavaScript values that can reach the resolver are [JsVal]:
      [undefined], [null], booleans and strings (the flag value type is
      boolean | string | null; [undefined] is what an absent property or
      an omitted argument evaluates to).
    - The definitions registry and the storage map are plain objects:
      finite maps of their own properties with [Object.prototype] behind
      them. Reading a property that is not an own one finds the member
      of [Object.prototype] of that name, if there is one ([toString],
      [constructor], ...): see [getFlagDef] and [lookupStorage].
    - Storage objects live in a heap (the array handed to the
      constructor); the storage map holds references into it, so that
      the ["_default"] alias and the storage's own name denote one object.
    - Effects are explicit: a computation takes a [World] (heap, console
      log, record of mutating backend calls, microtask queue) and returns
      a [Result] together with the new world. A thrown exception keeps
      the effects that happened before it. *)

From Stdlib Require Import String Ascii List Bool NArith.
From stdpp Require Import base option list strings gmap fin_maps.

Local Open Scope string_scope.

(* ===================================================================== *)
(** ** Values *)
(* ===================================================================== *)

Inductive JsVal :=
| VUndefined
| VNull
| VBool (b : bool)
| VStr (s : string).

#[global] Instance JsVal_eq_dec : EqDecision JsVal.
Proof. solve_decision. Defined.

(** [a === b] on primitives. *)
Definition strictEq (a b : JsVal) : bool := bool_decide (a = b).

(** [!!v]. *)
Definition truthy (v : JsVal) : bool :=
  match v with
  | VUndefined | VNull => false
  | VBool b => b
  | VStr s => negb (String.eqb s "")
  end.

(** [typeof v === 'string']. *)
Definition isString (v : JsVal) : bool :=
  match v with VStr _ => true | _ => false end.

(** [v === undefined || v === null]. *)
Definition isNullish (v : JsVal) : bool :=
  match v with VUndefined | VNull => true | _ => false end.

(** *** [JSON.stringify] on primitives *)

Definition dquote : ascii := ascii_of_nat 34.
Definition backslash : ascii := ascii_of_nat 92.

Definition hexDigit (n : N) : ascii :=
  if (n <? 10)%N then ascii_of_N (48 + n) else ascii_of_N (87 + n).

(** The escape of one code unit inside a JSON string literal. *)
Definition quoteJSONChar (c : ascii) : string :=
  let n := N_of_ascii c in
  if (n =? 8)%N then String backslash "b"
  else if (n =? 9)%N then String backslash "t"
  else if (n =? 10)%N then String backslash "n"
  else if (n =? 12)%N then String backslash "f"
  else if (n =? 13)%N then String backslash "r"
  else if (n =? 34)%N then String backslash (String dquote "")
  else if (n =? 92)%N then String backslash (String backslash "")
  else if (n <? 32)%N then
    String backslash
      ("u00" ++ String (hexDigit (n / 16)) (String (hexDigit (n mod 16)) ""))
  else String c "".

Fixpoint quoteJSONBody (s : string) : string :=
  match s with
  | EmptyString => ""
  | String c rest => quoteJSONChar c ++ quoteJSONBody rest
  end.

Definition quoteJSONString (s : string) : string :=
  String dquote (quoteJSONBody s ++ String dquote "").

(** [JSON.stringify(v)]: a string, or [undefined] ([None]) for
    [undefined]. *)
Definition JSON_stringify (v : JsVal) : option string :=
  match v with
  | VUndefined => None
  | VNull => Some "null"
  | VBool true => Some "true"
  | VBool false => Some "false"
  | VStr s => Some (quoteJSONString s)
  end.

(** [JSON.stringify(a) === JSON.stringify(b)]. *)
Definition sameJSON (a b : JsVal) : bool :=
  bool_decide (JSON_stringify a = JSON_stringify b).

(* ===================================================================== *)
(** ** Definitions and storages *)
(* ===================================================================== *)

(** A flag definition; an absent property reads as [undefined]
    ([VUndefined], [None]). *)
Module FlagDefinition.
Record t := mk {
  default : JsVal;
  options : option (list string);
  storage : option string
}.
End FlagDefinition.

(** Modelled from the spec: the storage capability of section 6, whose
    declarations ([FlaggStorage], [FlaggReadOnlyStorage] in [./defs]) and
    implementations are not part of the sources. A storage is a named
    synchronous key/value backend: [get] reads its contents ([undefined]
    for a missing key), [set] writes a key, [remove] deletes one. A
    storage object may lack [set] or [remove] (a read-only storage), and
    its [set]/[remove] may throw on some keys ([rejects]), leaving the
    contents as they were. *)
Module Storage.
Record t := mk {
  name : string;
  has_set : bool;
  has_remove : bool;
  rejects : list string;
  contents : gmap string JsVal
}.

Definition get (s : t) (key : string) : JsVal :=
  match contents s !! key with
  | Some v => v
  | None => VUndefined
  end.

Definition stored (s : t) (key : string) (v : JsVal) : t :=
  mk (name s) (has_set s) (has_remove s) (rejects s)
     (<[key := v]> (contents s)).

Definition removed (s : t) (key : string) : t :=
  mk (name s) (has_set s) (has_remove s) (rejects s)
     (delete key (contents s)).

Definition faulty (s : t) (key : string) : bool :=
  bool_decide (key ∈ rejects s).
End Storage.

(** The outcome of a hydration source's [all()]: a promise fulfilled
    with the entries of a key/value mapping, or rejected. *)
Inductive Fetch :=
| Fulfilled (entries : list (string * JsVal))
| Rejected.

Module HydrationSource.
Record t := mk { name : string; all : Fetch }.
End HydrationSource.

(** A value that is a single object, an array of them, or absent: the
    shape of the [storage] and [hydrateFrom] options. *)
Inductive OneOrMany (T : Type) :=
| Absent
| One (x : T)
| Many (l : list T).
Arguments Absent {T}.
Arguments One {T} x.
Arguments Many {T} l.

(* ===================================================================== *)
(** ** Worlds and computations *)
(* ===================================================================== *)

Inductive Exn :=
| TypeError
| BackendError.

Inductive Warning :=
| StorageNotAvailable (storageName : string)
| ReadOnlyStorage (storageName : string).

(** A mutating call made on a storage object of the heap. *)
Inductive Call :=
| CallSet (ref : nat) (key : string) (v : JsVal)
| CallRemove (ref : nat) (key : string).

Record World := mkWorld {
  heap : list Storage.t;
  console : list Warning;
  calls : list Call;
  microtasks : list Fetch;
  unhandled : list Exn
}.

Inductive Result (A : Type) :=
| Ok (a : A)
| Throw (e : Exn).
Arguments Ok {A} a.
Arguments Throw {A} e.

Definition M (A : Type) : Type := World → Result A * World.

Definition ret {A} (a : A) : M A := λ w, (Ok a, w).

Definition throw {A} (e : Exn) : M A := λ w, (Throw e, w).

Definition bind {A B} (c : M A) (k : A → M B) : M B :=
  λ w, match c w with
       | (Ok a, w') => k a w'
       | (Throw e, w') => (Throw e, w')
       end.

Notation "'let*' x ':=' c 'in' k" := (bind c (λ x, k))
  (at level 10, x name, c at level 100, k at level 200).
Notation "c ';;' k" := (bind c (λ _, k))
  (at level 100, k at level 200, right associativity).

(** [console.warn(...)]. *)
Definition warn (msg : Warning) : M unit :=
  λ w, (Ok tt, mkWorld (heap w) (console w ++ [msg]) (calls w)
                       (microtasks w) (unhandled w)).

Definition recordCall (c : Call) : M unit :=
  λ w, (Ok tt, mkWorld (heap w) (console w) (calls w ++ [c])
                       (microtasks w) (unhandled w)).

Definition putHeap (h : list Storage.t) : M unit :=
  λ w, (Ok tt, mkWorld h (console w) (calls w) (microtasks w) (unhandled w)).

(** What a property of the storage map can evaluate to, and so what
    the code may hold as "the storage" of a flag: [undefined], one of the
    storage objects of the heap, some other object (a function or
    [Object.prototype] itself, found through the prototype chain), or a
    string. An object that is no storage has no [get], [set] or
    [remove]; [printedName] is its [name] as a template literal prints
    it. *)
Inductive StorageValue :=
| NoValue
| StorageObject (i : nat)
| OtherObject (printedName : string)
| StringValue (s : string).

#[global] Instance StorageValue_eq_dec : EqDecision StorageValue.
Proof. solve_decision. Defined.

(** [!!value] on a storage value. *)
Definition truthyValue (value : StorageValue) : bool :=
  match value with
  | NoValue => false
  | StorageObject _ | OtherObject _ => true
  | StringValue s => negb (String.eqb s "")
  end.

(** Dereferencing a storage value as a storage object; anything else
    (or a dangling reference) has none of a storage's methods. *)
Definition deref (storage : StorageValue) : M (nat * Storage.t) :=
  λ w, match storage with
       | StorageObject i =>
           match heap w !! i with
           | Some s => (Ok (i, s), w)
           | None => (Throw TypeError, w)
           end
       | _ => (Throw TypeError, w)
       end.

(** [storage.get(key)]: calling the [get] of [undefined] or of a value
    that has no [get] throws. *)
Definition storage_get (storage : StorageValue) (key : string) : M JsVal :=
  let* o := deref storage in ret (Storage.get (snd o) key).

(** [member in storage], for a method of storages: false on an object
    that is no storage, a [TypeError] on [undefined] and on a string. *)
Definition method_in (member : Storage.t → bool) (storage : StorageValue)
  : M bool :=
  match storage with
  | OtherObject _ => ret false
  | _ => let* o := deref storage in ret (member (snd o))
  end.

(** ['set' in storage] and ['remove' in storage]. *)
Definition set_in (storage : StorageValue) : M bool :=
  method_in Storage.has_set storage.

Definition remove_in (storage : StorageValue) : M bool :=
  method_in Storage.has_remove storage.

(** [storage.name], as a template literal prints it. *)
Definition storage_name (storage : StorageValue) : M string :=
  match storage with
  | OtherObject printedName => ret printedName
  | StringValue _ => ret "undefined"
  | _ => let* o := deref storage in ret (Storage.name (snd o))
  end.

(** [storage.set(key, v)]. *)
Definition storage_set (storage : StorageValue) (key : string) (v : JsVal)
  : M unit :=
  let* o := deref storage in
  recordCall (CallSet (fst o) key v) ;;
  if Storage.faulty (snd o) key then throw BackendError
  else λ w, putHeap (<[fst o := Storage.stored (snd o) key v]> (heap w)) w.

(** [storage.remove(key)]. *)
Definition storage_remove (storage : StorageValue) (key : string) : M unit :=
  let* o := deref storage in
  recordCall (CallRemove (fst o) key) ;;
  if Storage.faulty (snd o) key then throw BackendError
  else λ w, putHeap (<[fst o := Storage.removed (snd o) key]> (heap w)) w.

(** Iterating a callback over an array; an exception thrown by the
    callback leaves the loop. *)
Fixpoint forEach {A} (l : list A) (f : A → M unit) : M unit :=
  match l with
  | [] => ret tt
  | x :: rest => f x ;; forEach rest f
  end.

(* ===================================================================== *)
(** ** The core functions *)
(* ===================================================================== *)

Definition DEFAULT_STORAGE_NAME : string := "_default".

(** Ensures a value is an array. *)
Definition makeArray {T} (val : OneOrMany T) : list T :=
  match val with
  | Many l => l
  | One x => [x]
  | Absent => []
  end.

(** Takes a single or array of storage items and makes a name -> value
    map. The object is given by its own properties; the values are
    references into the array, [None] is [undefined]. Assigning the key
    ["__proto__"] does not add a property but replaces the prototype of
    the object being built: the binding of ["__proto__"] stands for that
    prototype (reading ["__proto__"] gives it back). The prototype chain
    is followed by [lookupStorage]. *)
Definition makeStorageMap (_storage : OneOrMany Storage.t)
  : gmap string (option nat) :=
  let storageArr := makeArray _storage in
  foldl (λ acc '(i, storage), <[Storage.name storage := Some i]> acc)
        {[ DEFAULT_STORAGE_NAME := (λ _, 0) <$> head storageArr ]}
        (imap pair storageArr).

(** The names of the members of [Object.prototype]. *)
Definition objectPrototypeMembers : list string :=
  ["constructor"; "__defineGetter__"; "__defineSetter__"; "hasOwnProperty";
   "__lookupGetter__"; "__lookupSetter__"; "isPrototypeOf";
   "propertyIsEnumerable"; "toString"; "valueOf"; "__proto__";
   "toLocaleString"].

Definition inheritedFromObject (key : string) : bool :=
  bool_decide (key ∈ objectPrototypeMembers).

(** [Object.prototype[key]]: the functions carry their own name
    ([constructor] is the function [Object]); ["__proto__"] reads as the
    prototype of [Object.prototype]'s heir, an object without [name]. *)
Definition objectPrototypeMember (key : string) : StorageValue :=
  if inheritedFromObject key then
    OtherObject (if String.eqb key "constructor" then "Object"
                 else if String.eqb key "__proto__" then "undefined"
                 else key)
  else NoValue.

(** [proto[key]] for a storage object that has become the prototype of
    the storage map: the members of the storage capability (its [name],
    its [get], its [set] and [remove] when it has them, the [all] of a
    read-only storage), then [Object.prototype]. *)
Definition storageMember (s : Storage.t) (key : string) : StorageValue :=
  if String.eqb key "name" then StringValue (Storage.name s)
  else if String.eqb key "get" then OtherObject "get"
  else if String.eqb key "set" && Storage.has_set s then OtherObject "set"
  else if String.eqb key "remove" && Storage.has_remove s
  then OtherObject "remove"
  else if String.eqb key "all" && negb (Storage.has_set s)
          && negb (Storage.has_remove s)
  then OtherObject "all"
  else objectPrototypeMember key.

(** [storageMap[key]]: the own property if there is one, else what the
    prototype chain gives. The heap is needed to read the members of a
    storage that has become the prototype. *)
Definition lookupStorage (h : list Storage.t)
  (storageMap : gmap string (option nat)) (key : string) : StorageValue :=
  match storageMap !! key with
  | Some (Some i) => StorageObject i
  | Some None => NoValue
  | None =>
      match storageMap !! "__proto__" with
      | Some (Some p) =>
          match h !! p with
          | Some s => storageMember s key
          | None => objectPrototypeMember key
          end
      | _ => objectPrototypeMember key
      end
  end.

(** Reading [storageMap[key]] in the current world. *)
Definition readStorageMap (storageMap : gmap string (option nat))
  (key : string) : M StorageValue :=
  λ w, (Ok (lookupStorage (heap w) storageMap key), w).

(** A property key computed from a possibly [undefined] string. *)
Definition propertyKey (k : option string) : string :=
  match k with
  | Some s => s
  | None => "undefined"
  end.

(** [flagDef.p]: reading a property of [undefined] throws. *)
Definition property {A} (flagDef : option FlagDefinition.t)
  (p : FlagDefinition.t → A) : M A :=
  match flagDef with
  | Some d => ret (p d)
  | None => throw TypeError
  end.

(** What the code reads of a member of [Object.prototype] that it
    takes for a definition: a function or object whose [default],
    [options] and [storage] are all [undefined]. *)
Definition inheritedMember : FlagDefinition.t :=
  FlagDefinition.mk VUndefined None None.

(** Get the definition for a flag: [definitions[flagName]], the own
    property of the registry or else the member of [Object.prototype] of
    that name; [None] is [undefined]. *)
Definition getFlagDef (definitions : gmap string FlagDefinition.t)
  (flagName : string) : option FlagDefinition.t :=
  match definitions !! flagName with
  | Some d => Some d
  | None => if inheritedFromObject flagName then Some inheritedMember else None
  end.

(** Get the default value for a flag from its definition. *)
Definition getFlagDefaultValue (flagDef : option FlagDefinition.t)
  : M JsVal :=
  let* d := property flagDef FlagDefinition.default in
  ret (if strictEq d VUndefined then VNull else d).

(** Get the storage instance for a flag definition. *)
Definition resolveFlagStorage (flagDef : option FlagDefinition.t)
  (storageMap : gmap string (option nat)) : M StorageValue :=
  let* storageName := property flagDef FlagDefinition.storage in
  let* found := readStorageMap storageMap (propertyKey storageName) in
  if truthyValue found then ret found
  else
    match storageName with
    | Some n => warn (StorageNotAvailable n)
    | None => ret tt
    end ;;
    readStorageMap storageMap DEFAULT_STORAGE_NAME.

(** Get the value set for the flag for its storage. *)
Definition getFlagValue (flagDef : option FlagDefinition.t)
  (flagName : string) (storageMap : gmap string (option nat)) : M JsVal :=
  let* storage := resolveFlagStorage flagDef storageMap in
  storage_get storage flagName.

(** Get the fully resolved flag value taking into account the default
    fallback. *)
Definition getResolvedFlagValue (definitions : gmap string FlagDefinition.t)
  (flagName : string) (storageMap : gmap string (option nat)) : M JsVal :=
  let flagDef := getFlagDef definitions flagName in
  match flagDef with
  | None => ret VNull
  | Some _ =>
      let* defaultValue := getFlagDefaultValue flagDef in
      let* value := getFlagValue flagDef flagName storageMap in
      if isNullish value then ret defaultValue else ret value
  end.

Definition setFlagValue (definitions : gmap string FlagDefinition.t)
  (flagName : string) (value : JsVal)
  (storageMap : gmap string (option nat)) : M unit :=
  let flagDef := getFlagDef definitions flagName in
  let* storage := resolveFlagStorage flagDef storageMap in
  let* defaultValue := getFlagDefaultValue flagDef in
  if sameJSON value defaultValue then
    let* can := remove_in storage in
    if can then storage_remove storage flagName
    else let* n := storage_name storage in warn (ReadOnlyStorage n)
  else
    let* can := set_in storage in
    if can then storage_set storage flagName value
    else let* n := storage_name storage in warn (ReadOnlyStorage n).

Inductive FlagType :=
| Select
| StringType
| Boolean.

#[global] Instance FlagType_eq_dec : EqDecision FlagType.
Proof. solve_decision. Defined.

Definition getFlagType (flagDef : option FlagDefinition.t) : M FlagType :=
  let* options := property flagDef FlagDefinition.options in
  match options with
  | Some _ => ret Select
  | None =>
      let* d := property flagDef FlagDefinition.default in
      if isString d then ret StringType else ret Boolean
  end.

(* ===================================================================== *)
(** ** The resolver instance *)
(* ===================================================================== *)

Module FlaggOpts.
Record t := mk {
  storage : OneOrMany Storage.t;
  definitions : option (gmap string FlagDefinition.t);
  hydrateFrom : OneOrMany HydrationSource.t
}.
End FlaggOpts.

(** The variables closed over by the functions of one resolver. *)
Record Flagg := mkFlagg {
  definitions : gmap string FlagDefinition.t;
  storageMap : gmap string (option nat);
  hydrateFromStorages : list HydrationSource.t
}.

(** The first argument of [set]: a flag name (with the second argument,
    [undefined] when omitted) or a mapping, given by its entries in the
    order [Object.entries] lists them. *)
Inductive SetArg :=
| FlagName (flagName : string) (value : JsVal)
| Flags (entries : list (string * JsVal)).

(** Each source's [all()] is called and awaited; what follows the
    [await] is left on the microtask queue. *)
Definition hydrate (f : Flagg) : M unit :=
  λ w, (Ok tt, mkWorld (heap w) (console w) (calls w)
                 (microtasks w ++ (HydrationSource.all <$> hydrateFromStorages f))
                 (unhandled w)).

Definition get (f : Flagg) (flagName : string) : M JsVal :=
  getResolvedFlagValue (definitions f) flagName (storageMap f).

Definition getDefault (f : Flagg) (flagName : string) : M JsVal :=
  getFlagDefaultValue (getFlagDef (definitions f) flagName).

Definition isOn (f : Flagg) (flagName : string) : M bool :=
  let* v := get f flagName in ret (truthy v).

Definition set (f : Flagg) (flagNameOrFlags : SetArg) : M unit :=
  match flagNameOrFlags with
  | FlagName flagName value =>
      if negb (strictEq value VUndefined)
      then setFlagValue (definitions f) flagName value (storageMap f)
      else ret tt
  | Flags entries =>
      forEach entries
        (λ e, setFlagValue (definitions f) (fst e) (snd e) (storageMap f))
  end.

Definition isOverridden (f : Flagg) (flagName : string) : M bool :=
  let flagDef := getFlagDef (definitions f) flagName in
  let* type := getFlagType flagDef in
  if bool_decide (type = Boolean) then
    let* on := isOn f flagName in
    let* d := getDefault f flagName in
    ret (negb (eqb on (truthy d)))
  else
    let* v := get f flagName in
    let* d := getDefault f flagName in
    ret (negb (strictEq v d)).



(** [arr.reduce(callback, initial)] with a callback that may throw. *)
Fixpoint reduce {A B} (l : list A) (g : B → A → M B) (acc : B) : M B :=
  match l with
  | [] => ret acc
  | x :: rest => let* acc' := g acc x in reduce rest g acc'
  end.

(** [getAllResolved()]. The registry is a finite map, which does not
    record the order of its keys: [keys] stands for
    [Object.keys(definitions)], the own keys of the registry in the
    object's order. The result object is a finite map. *)
Definition getAllResolved (f : Flagg) (keys : list string)
  : M (gmap string JsVal) :=
  reduce keys
    (λ acc flagName,
       let* v := get f flagName in ret (<[flagName := v]> acc))
    ∅.

(** [getAllOverridden()], with [keys] as in [getAllResolved]. *)
Definition getAllOverridden (f : Flagg) (keys : list string)
  : M (gmap string JsVal) :=
  reduce keys
    (λ acc flagName,
       let* o := isOverridden f flagName in
       if o then let* v := get f flagName in ret (<[flagName := v]> acc)
       else ret acc)
    ∅.

(** The rest of one hydration callback, run from the microtask queue:
    [set(values)] with the definitions current at that time. An
    exception in it, or a rejected fetch, rejects the callback's promise,
    which nobody handles. *)
Definition unhandledRejection (e : Exn) (w : World) : World :=
  mkWorld (heap w) (console w) (calls w) (microtasks w) (unhandled w ++ [e]).

Definition runMicrotask (f : Flagg) (w : World) : World :=
  match microtasks w with
  | [] => w
  | task :: rest =>
      let w1 := mkWorld (heap w) (console w) (calls w) rest (unhandled w) in
      match task with
      | Rejected => unhandledRejection BackendError w1
      | Fulfilled values =>
          match set f (Flags values) w1 with
          | (Ok _, w2) => w2
          | (Throw e, w2) => unhandledRejection e w2
          end
      end
  end.

(** Running the queue until it is empty ([set] queues nothing). *)
Definition settle (f : Flagg) (w : World) : World :=
  Nat.iter (length (microtasks w)) (runMicrotask f) w.

(** Create a new feature flags store with Flagg. *)
Definition flagg (opts : FlaggOpts.t) : Flagg * World :=
  let f := mkFlagg
             (match FlaggOpts.definitions opts with
              | Some d => d
              | None => ∅
              end)
             (makeStorageMap (FlaggOpts.storage opts))
             (makeArray (FlaggOpts.hydrateFrom opts)) in
  let w0 := mkWorld (makeArray (FlaggOpts.storage opts)) [] [] [] [] in
  (f, snd (hydrate f w0)).

(* ===================================================================== *)
(** ** Derived notions used in the statements *)
(* ===================================================================== *)

(** The definition's default with an absent default read as [null]. *)
Definition defaultOf (d : FlagDefinition.t) : JsVal :=
  if strictEq (FlagDefinition.default d) VUndefined then VNull
  else FlagDefinition.default d.

(** The storage value a definition resolves to, over a given heap. *)
Definition resolvedStorage (h : list Storage.t) (d : FlagDefinition.t)
  (sm : gmap string (option nat)) : StorageValue :=
  if truthyValue (lookupStorage h sm (propertyKey (FlagDefinition.storage d)))
  then lookupStorage h sm (propertyKey (FlagDefinition.storage d))
  else lookupStorage h sm DEFAULT_STORAGE_NAME.

(** A truthy value that is no storage object: storage resolution
    returns it as the flag's storage, and it has none of a storage's
    methods. *)
Definition foreignValue (value : StorageValue) : bool :=
  match value with
  | OtherObject _ => true
  | StringValue s => negb (String.eqb s "")
  | NoValue | StorageObject _ => false
  end.

(** The storage map grown from [init] by the reduction of
    [makeStorageMap]. *)
Definition storageMapFrom (init : gmap string (option nat))
  (storageArr : list Storage.t) : gmap string (option nat) :=
  foldl (λ acc '(i, storage), <[Storage.name storage := Some i]> acc)
        init (imap pair storageArr).

(** The warnings storage resolution logs for a definition. *)
Definition resolveWarnings (h : list Storage.t) (d : FlagDefinition.t)
  (sm : gmap string (option nat)) : list Warning :=
  match FlagDefinition.storage d with
  | Some n => if truthyValue (lookupStorage h sm n) then []
              else [StorageNotAvailable n]
  | None => []
  end.

(** What of a storage object a lookup in the storage map can depend on:
    its name and which methods it has. *)
Definition shape (s : Storage.t) : string * bool * bool :=
  (Storage.name s, Storage.has_set s, Storage.has_remove s).

(** The flag type in the words of section 4.5: "select" if the
    definition has an options list; else "string" if the default is a
    string; else "boolean". *)
Definition flagTypeSpec (d : FlagDefinition.t) : FlagType :=
  if bool_decide (is_Some (FlagDefinition.options d)) then Select
  else if isString (FlagDefinition.default d) then StringType
  else Boolean.

(** Two worlds that differ at most in what was written to the console. *)
Record sameButConsole (w w' : World) : Prop := {
  sbc_heap : heap w' = heap w;
  sbc_calls : calls w' = calls w;
  sbc_microtasks : microtasks w' = microtasks w;
  sbc_unhandled : unhandled w' = unhandled w
}.

(** A computation that leaves the microtask queue and the unhandled
    rejections as they are, whatever its outcome. *)
Definition keepsQueue {A} (c : M A) : Prop :=
  ∀ w r w', c w = (r, w') →
    microtasks w' = microtasks w ∧ unhandled w' = unhandled w.

(** A computation whose initial and final worlds are always related by
    [R], whatever its outcome. *)
Definition keeps {A} (R : World → World → Prop) (c : M A) : Prop :=
  ∀ w r w', c w = (r, w') → R w w'.

(** Two states of one storage object that agree on everything except,
    possibly, the values of the keys in [K]. *)
Record sameStorageBut (K : string → Prop) (s s' : Storage.t) : Prop := {
  ssb_name : Storage.name s' = Storage.name s;
  ssb_has_set : Storage.has_set s' = Storage.has_set s;
  ssb_has_remove : Storage.has_remove s' = Storage.has_remove s;
  ssb_rejects : Storage.rejects s' = Storage.rejects s;
  ssb_contents : ∀ k, ¬ K k → Storage.contents s' !! k = Storage.contents s !! k
}.

(** Two worlds with the same storage objects, of which only those at
    the references in [T] may differ, and only in the keys in [K]. *)
Record touchesOnly (T : nat → Prop) (K : string → Prop) (w w' : World)
  : Prop := {
  to_length : length (heap w') = length (heap w);
  to_storage : ∀ j s, heap w !! j = Some s →
    ∃ s', heap w' !! j = Some s' ∧ sameStorageBut K s s' ∧ (¬ T j → s' = s)
}.

(** The flag names a call of [set] mentions. *)
Definition namesOf (arg : SetArg) : list string :=
  match arg with
  | FlagName flagName _ => [flagName]
  | Flags entries => entries.*1
  end.



(** Reading back the first escaped code unit of the body of a JSON
    string literal, with the rest of the text: the inverse of
    [quoteJSONChar], used to show that quoting loses nothing. *)
Definition hexValue (a : ascii) : N :=
  let n := N_of_ascii a in
  if (n <? 58)%N then (n - 48)%N else (n - 87)%N.

Definition unquoteJSONChar (s : string) : option (ascii * string) :=
  match s with
  | EmptyString => None
  | String c rest =>
      if Ascii.eqb c backslash then
        match rest with
        | EmptyString => None
        | String e rest' =>
            if Ascii.eqb e "b" then Some (ascii_of_N 8, rest')
            else if Ascii.eqb e "t" then Some (ascii_of_N 9, rest')
            else if Ascii.eqb e "n" then Some (ascii_of_N 10, rest')
            else if Ascii.eqb e "f" then Some (ascii_of_N 12, rest')
            else if Ascii.eqb e "r" then Some (ascii_of_N 13, rest')
            else if Ascii.eqb e dquote then Some (dquote, rest')
            else if Ascii.eqb e backslash then Some (backslash, rest')
            else if Ascii.eqb e "u" then
              match rest' with
              | String _ (String _ (String h1 (String h2 rest''))) =>
                  Some (ascii_of_N (16 * hexValue h1 + hexValue h2), rest'')
              | _ => None
              end
            else None
        end
      else Some (c, rest)
  end.

(** *** Sample data *)

Definition memA : Storage.t := Storage.mk "A" true true [] ∅.
Definition memB : Storage.t := Storage.mk "B" true true [] ∅.
Definition readOnlyR : Storage.t := Storage.mk "R" false false [] ∅.
Definition flakyA : Storage.t := Storage.mk "A" true true ["a"] ∅.

Definition boolFlag : FlagDefinition.t :=
  FlagDefinition.mk (VBool false) None None.
Definition bareFlag : FlagDefinition.t :=
  FlagDefinition.mk VUndefined None None.
Definition strayFlag : FlagDefinition.t :=
  FlagDefinition.mk (VBool false) None (Some "C").

Definition sourceA : HydrationSource.t :=
  HydrationSource.mk "remote" (Fulfilled [("a", VBool true)]).

Definition optsA (defs : gmap string FlagDefinition.t) : FlaggOpts.t :=
  FlaggOpts.mk (One memA) (Some defs) Absent.

(** A resolver over one in-memory storage with a boolean flag ["a"]. *)
Definition sampleFlagg : Flagg := fst (flagg (optsA {[ "a" := boolFlag ]})).
Definition sampleWorld : World := snd (flagg (optsA {[ "a" := boolFlag ]})).

(** The options of the hydration scenario: an in-memory storage, flag
    ["a"] with default [false], a source returning [{a: true}]. *)
Definition hydratedOpts : FlaggOpts.t :=
  FlaggOpts.mk (One memA) (Some {[ "a" := boolFlag ]}) (One sourceA).

(** A resolver whose only storage throws on writes to ["a"]. *)
Definition flakyFlagg : Flagg :=
  fst (flagg (FlaggOpts.mk (One flakyA)
                (Some {[ "a" := boolFlag; "b" := boolFlag ]}) Absent)).
Definition flakyWorld : World :=
  snd (flagg (FlaggOpts.mk (One flakyA)
                (Some {[ "a" := boolFlag; "b" := boolFlag ]}) Absent)).

(** The same world after ["a"] was overridden. *)
Definition overriddenWorld : World :=
  snd (set sampleFlagg (FlagName "a" (VBool true)) sampleWorld).


(* ===================================================================== *)
(** ** Basic facts about the core functions *)
(* ===================================================================== *)

Lemma sameButConsole_refl w : sameButConsole w w.
Proof. by split. Qed.

Lemma sameButConsole_trans w1 w2 w3 :
  sameButConsole w1 w2 → sameButConsole w2 w3 → sameButConsole w1 w3.
Proof.
  intros [H1 H2 H3 H4] [K1 K2 K3 K4]; split; congruence.
Qed.

Lemma sameJSON_refl v : sameJSON v v = true.
Proof. unfold sameJSON. by apply bool_decide_eq_true. Qed.

Lemma sameJSON_false_neq v d : sameJSON v d = false → v ≠ d.
Proof. intros H ->. by rewrite sameJSON_refl in H. Qed.

Lemma defaultOf_not_undefined d : defaultOf d ≠ VUndefined.
Proof.
  unfold defaultOf, strictEq. case_bool_decide; congruence.
Qed.

Lemma sameJSON_default_defined v d :
  sameJSON v (defaultOf d) = true → v ≠ VUndefined.
Proof.
  intros H ->. apply bool_decide_eq_true in H.
  pose proof (defaultOf_not_undefined d) as Hd.
  destruct (defaultOf d) as [| |[]|]; simpl in H; congruence.
Qed.

Lemma getFlagDefaultValue_some d w :
  getFlagDefaultValue (Some d) w = (Ok (defaultOf d), w).
Proof. reflexivity. Qed.

Lemma getFlagDefaultValue_none w :
  getFlagDefaultValue None w = (Throw TypeError, w).
Proof. reflexivity. Qed.

Lemma getFlagType_some d w :
  getFlagType (Some d) w = (Ok (flagTypeSpec d), w).
Proof.
  unfold getFlagType, flagTypeSpec, property, bind, ret; simpl.
  destruct (FlagDefinition.options d) as [o|]; simpl; [done|].
  by destruct (isString _).
Qed.

Lemma getFlagType_none w : getFlagType None w = (Throw TypeError, w).
Proof. reflexivity. Qed.

Lemma resolveFlagStorage_none sm w :
  resolveFlagStorage None sm w = (Throw TypeError, w).
Proof. reflexivity. Qed.

Lemma resolveFlagStorage_some d sm w :
  ∃ w', resolveFlagStorage (Some d) sm w
        = (Ok (resolvedStorage (heap w) d sm), w')
        ∧ sameButConsole w w'
        ∧ console w' = (console w ++ resolveWarnings (heap w) d sm)%list.
Proof.
  unfold resolveFlagStorage, resolvedStorage, resolveWarnings, property,
    readStorageMap, bind, ret; simpl.
  destruct (FlagDefinition.storage d) as [n|]; simpl.
  - destruct (truthyValue (lookupStorage (heap w) sm n)).
    + exists w. split; [done|]. split; [by split|]. by rewrite app_nil_r.
    + eexists. split; [done|]. by split.
  - destruct (truthyValue (lookupStorage (heap w) sm "undefined")).
    + exists w. split; [done|]. split; [by split|]. by rewrite app_nil_r.
    + exists w. split; [done|]. split; [by split|]. by rewrite app_nil_r.
Qed.

(** A lookup in the storage map sees of the heap only the shapes of
    the storage objects. *)
Lemma lookupStorage_shape (h h' : list Storage.t) sm key :
  (∀ j, shape <$> h' !! j = shape <$> h !! j) →
  lookupStorage h' sm key = lookupStorage h sm key.
Proof.
  intros Hsh. unfold lookupStorage.
  destruct (sm !! key) as [[i|]|]; [done|done|].
  destruct (sm !! "__proto__") as [[p|]|]; [|done|done].
  specialize (Hsh p).
  destruct (h' !! p) as [s'|], (h !! p) as [s|]; simpl in Hsh; try done.
  injection Hsh as Hn Hs Hr. unfold storageMember. by rewrite Hn, Hs, Hr.
Qed.

Lemma resolvedStorage_shape (h h' : list Storage.t) d sm :
  (∀ j, shape <$> h' !! j = shape <$> h !! j) →
  resolvedStorage h' d sm = resolvedStorage h d sm.
Proof.
  intros Hsh. unfold resolvedStorage.
  by rewrite !(lookupStorage_shape h h' sm _ Hsh).
Qed.

Lemma resolveWarnings_shape (h h' : list Storage.t) d sm :
  (∀ j, shape <$> h' !! j = shape <$> h !! j) →
  resolveWarnings h' d sm = resolveWarnings h d sm.
Proof.
  intros Hsh. unfold resolveWarnings.
  destruct (FlagDefinition.storage d); [|done].
  by rewrite (lookupStorage_shape h h' sm _ Hsh).
Qed.

(** Storing or removing a key leaves the shapes as they are. *)
Lemma shape_insert (h : list Storage.t) (i : nat) s s' :
  h !! i = Some s → shape s' = shape s →
  ∀ j, shape <$> <[i := s']> h !! j = shape <$> h !! j.
Proof.
  intros Hi Hs j. destruct (decide (j = i)) as [->|Hne].
  - rewrite list_lookup_insert_eq by (by eapply lookup_lt_Some).
    rewrite Hi. simpl. by rewrite Hs.
  - by rewrite list_lookup_insert_ne.
Qed.

Lemma resolvedStorage_stored (h : list Storage.t) i s key v d sm :
  h !! i = Some s →
  resolvedStorage (<[i := Storage.stored s key v]> h) d sm
  = resolvedStorage h d sm.
Proof.
  intros Hi. apply resolvedStorage_shape. by apply (shape_insert h i s).
Qed.

Lemma resolvedStorage_removed (h : list Storage.t) i s key d sm :
  h !! i = Some s →
  resolvedStorage (<[i := Storage.removed s key]> h) d sm
  = resolvedStorage h d sm.
Proof.
  intros Hi. apply resolvedStorage_shape. by apply (shape_insert h i s).
Qed.

Lemma resolveFlagStorage_fst d sm w r :
  fst (resolveFlagStorage (Some d) sm w) = Ok r →
  resolvedStorage (heap w) d sm = r.
Proof.
  destruct (resolveFlagStorage_some d sm w) as (w' & -> & _).
  simpl. congruence.
Qed.

Lemma deref_some i s w :
  heap w !! i = Some s → deref (StorageObject i) w = (Ok (i, s), w).
Proof. intros H. unfold deref. by rewrite H. Qed.

Lemma storage_get_some i s key w :
  heap w !! i = Some s →
  storage_get (StorageObject i) key w = (Ok (Storage.get s key), w).
Proof. intros H. unfold storage_get, bind. by rewrite (deref_some i s). Qed.

Lemma remove_in_some i s w :
  heap w !! i = Some s → remove_in (StorageObject i) w = (Ok (Storage.has_remove s), w).
Proof.
  intros H. unfold remove_in, method_in, bind. by rewrite (deref_some i s).
Qed.

Lemma set_in_some i s w :
  heap w !! i = Some s → set_in (StorageObject i) w = (Ok (Storage.has_set s), w).
Proof.
  intros H. unfold set_in, method_in, bind. by rewrite (deref_some i s).
Qed.

Lemma storage_name_some i s w :
  heap w !! i = Some s → storage_name (StorageObject i) w = (Ok (Storage.name s), w).
Proof. intros H. unfold storage_name, bind. by rewrite (deref_some i s). Qed.

Lemma storage_remove_ok i s key w :
  heap w !! i = Some s → Storage.faulty s key = false →
  storage_remove (StorageObject i) key w =
    (Ok tt, mkWorld (<[i := Storage.removed s key]> (heap w)) (console w)
                    (calls w ++ [CallRemove i key]) (microtasks w)
                    (unhandled w)).
Proof.
  intros H Hf. unfold storage_remove, bind. rewrite (deref_some i s) by done.
  simpl. by rewrite Hf.
Qed.

Lemma storage_set_ok i s key v w :
  heap w !! i = Some s → Storage.faulty s key = false →
  storage_set (StorageObject i) key v w =
    (Ok tt, mkWorld (<[i := Storage.stored s key v]> (heap w)) (console w)
                    (calls w ++ [CallSet i key v]) (microtasks w)
                    (unhandled w)).
Proof.
  intros H Hf. unfold storage_set, bind. rewrite (deref_some i s) by done.
  simpl. by rewrite Hf.
Qed.

(** Reading a defined flag whose storage resolves. *)
Lemma getResolvedFlagValue_defined defs sm name d i s w :
  getFlagDef defs name = Some d →
  resolvedStorage (heap w) d sm = StorageObject i →
  heap w !! i = Some s →
  ∃ w', getResolvedFlagValue defs name sm w =
          (Ok (if isNullish (Storage.get s name) then defaultOf d
               else Storage.get s name), w')
        ∧ sameButConsole w w'.
Proof.
  intros Hd Hr Hh.
  destruct (resolveFlagStorage_some d sm w) as (w1 & Hres & Hs & _).
  exists w1. split; [|done].
  unfold getResolvedFlagValue. rewrite Hd.
  unfold bind at 1. rewrite getFlagDefaultValue_some.
  unfold bind at 1. unfold getFlagValue, bind at 1. rewrite Hres, Hr.
  rewrite (storage_get_some i s) by (by rewrite (sbc_heap _ _ Hs)).
  by destruct (isNullish _).
Qed.

(** Reading an undefined flag. *)
Lemma getResolvedFlagValue_unknown defs sm name w :
  getFlagDef defs name = None →
  getResolvedFlagValue defs name sm w = (Ok VNull, w).
Proof. intros H. unfold getResolvedFlagValue. by rewrite H. Qed.


(** Writing a value equal to the default: [remove] is called. *)
Lemma setFlagValue_remove defs sm name d i s v w :
  getFlagDef defs name = Some d →
  resolvedStorage (heap w) d sm = StorageObject i →
  heap w !! i = Some s →
  sameJSON v (defaultOf d) = true →
  Storage.has_remove s = true →
  Storage.faulty s name = false →
  ∃ w', setFlagValue defs name v sm w = (Ok tt, w')
        ∧ heap w' = <[i := Storage.removed s name]> (heap w)
        ∧ calls w' = (calls w ++ [CallRemove i name])%list
        ∧ microtasks w' = microtasks w
        ∧ unhandled w' = unhandled w.
Proof.
  intros Hd Hr Hh Hj Hc Hf.
  destruct (resolveFlagStorage_some d sm w) as (w1 & Hres & [H1 H2 H3 H4] & _).
  rewrite <- H1 in Hh.
  eexists. split.
  - unfold setFlagValue. rewrite Hd. unfold bind at 1. rewrite Hres, Hr.
    unfold bind at 1. rewrite getFlagDefaultValue_some, Hj.
    unfold bind at 1. rewrite (remove_in_some i s), Hc by done.
    by apply storage_remove_ok.
  - simpl. rewrite H1, H2, H3, H4. done.
Qed.

(** Writing a value that differs from the default: [set] is called. *)
Lemma setFlagValue_set defs sm name d i s v w :
  getFlagDef defs name = Some d →
  resolvedStorage (heap w) d sm = StorageObject i →
  heap w !! i = Some s →
  sameJSON v (defaultOf d) = false →
  Storage.has_set s = true →
  Storage.faulty s name = false →
  ∃ w', setFlagValue defs name v sm w = (Ok tt, w')
        ∧ heap w' = <[i := Storage.stored s name v]> (heap w)
        ∧ calls w' = (calls w ++ [CallSet i name v])%list
        ∧ microtasks w' = microtasks w
        ∧ unhandled w' = unhandled w.
Proof.
  intros Hd Hr Hh Hj Hc Hf.
  destruct (resolveFlagStorage_some d sm w) as (w1 & Hres & [H1 H2 H3 H4] & _).
  rewrite <- H1 in Hh.
  eexists. split.
  - unfold setFlagValue. rewrite Hd. unfold bind at 1. rewrite Hres, Hr.
    unfold bind at 1. rewrite getFlagDefaultValue_some, Hj.
    unfold bind at 1. rewrite (set_in_some i s), Hc by done.
    by apply storage_set_ok.
  - simpl. rewrite H1, H2, H3, H4. done.
Qed.

(** Writing an undefined flag throws before anything happens. *)
Lemma setFlagValue_unknown defs sm name v w :
  getFlagDef defs name = None →
  setFlagValue defs name v sm w = (Throw TypeError, w).
Proof. intros H. unfold setFlagValue. by rewrite H. Qed.


(** Whether a defined flag is overridden, in terms of what is stored. *)
Lemma isOverridden_defined f name d i s w :
  getFlagDef (definitions f) name = Some d →
  resolvedStorage (heap w) d (storageMap f) = StorageObject i →
  heap w !! i = Some s →
  let v := if isNullish (Storage.get s name) then defaultOf d
           else Storage.get s name in
  ∃ w', isOverridden f name w =
          (Ok (if bool_decide (flagTypeSpec d = Boolean)
               then negb (eqb (truthy v) (truthy (defaultOf d)))
               else negb (strictEq v (defaultOf d))), w')
        ∧ sameButConsole w w'.
Proof.
  intros Hd Hr Hh v.
  destruct (getResolvedFlagValue_defined _ _ _ _ _ _ w Hd Hr Hh)
    as (w1 & Hget & Hs).
  exists w1. split; [|done].
  unfold isOverridden. rewrite Hd. unfold bind at 1.
  rewrite getFlagType_some.
  destruct (bool_decide (flagTypeSpec d = Boolean)).
  - unfold isOn, get, getDefault, bind. by rewrite Hget, Hd.
  - unfold get, getDefault, bind. by rewrite Hget, Hd.
Qed.

Lemma getDefault_fst f name w dflt :
  fst (getDefault f name w) = Ok dflt →
  ∃ d, getFlagDef (definitions f) name = Some d ∧ dflt = defaultOf d.
Proof.
  unfold getDefault.
  destruct (getFlagDef (definitions f) name) as [d|]; [|done].
  rewrite getFlagDefaultValue_some. simpl. intros [= <-]. eauto.
Qed.

Lemma Storage_get_stored s key v : Storage.get (Storage.stored s key v) key = v.
Proof. unfold Storage.get, Storage.stored. simpl. by rewrite lookup_insert_eq. Qed.

Lemma Storage_get_removed s key :
  Storage.get (Storage.removed s key) key = VUndefined.
Proof. unfold Storage.get, Storage.removed. simpl. by rewrite lookup_delete_eq. Qed.

(* ===================================================================== *)
(** ** Unknown flags *)
(* ===================================================================== *)

(** Reading an unknown flag through the resolver gives [null] and
    changes nothing. *)
Lemma get_unknown f name w :
  getFlagDef (definitions f) name = None → get f name w = (Ok VNull, w).
Proof. apply getResolvedFlagValue_unknown. Qed.

(** Writing an unknown flag by name throws a [TypeError] before any
    storage is touched. *)
Lemma set_unknown_throws f name v w :
  getFlagDef (definitions f) name = None → v ≠ VUndefined →
  set f (FlagName name v) w = (Throw TypeError, w).
Proof.
  intros Hd Hv. unfold set, strictEq.
  rewrite bool_decide_eq_false_2 by done. simpl.
  by apply setFlagValue_unknown.
Qed.

(** C2, at the failing input: with no definition for ["x"], [get("x")]
    returns [null], but [set("x", true)] is not skipped silently: it
    throws a [TypeError] (no storage call has been made, and the world is
    as before). *)
Theorem C2_set_unknown_flag_throws :
  getFlagDef (definitions sampleFlagg) "x" = None
  ∧ get sampleFlagg "x" sampleWorld = (Ok VNull, sampleWorld)
  ∧ set sampleFlagg (FlagName "x" (VBool true)) sampleWorld
    = (Throw TypeError, sampleWorld)
  ∧ calls sampleWorld = [].
Proof.
  split; [reflexivity|]. split; [|split; [|reflexivity]].
  - by apply get_unknown.
  - by apply set_unknown_throws.
Qed.

(** A name is without definition when the registry has no own property
    of that name and [Object.prototype] has no member of that name. *)
Lemma getFlagDef_None defs name :
  getFlagDef defs name = None
  ↔ defs !! name = None ∧ inheritedFromObject name = false.
Proof.
  unfold getFlagDef. destruct (defs !! name) as [d|].
  - split; [done|]. by intros [? _].
  - destruct (inheritedFromObject name); split; try done. by intros [_ ?].
Qed.


Lemma getFlagDef_inherited defs name :
  defs !! name = None → inheritedFromObject name = true →
  getFlagDef defs name = Some inheritedMember.
Proof. intros H Hi. unfold getFlagDef. by rewrite H, Hi. Qed.

(** A name that [Object.prototype] has a member for is written like a
    flag defined without default: [set("constructor", true)] calls the
    [set] of the default storage, and [get("constructor")] then returns
    [true], although the registry has no such key. *)
Example set_inherited_name_writes :
  let r := set sampleFlagg (FlagName "constructor" (VBool true)) sampleWorld in
  definitions sampleFlagg !! "constructor" = None
  ∧ fst r = Ok tt
  ∧ calls (snd r) = [CallSet 0 "constructor" (VBool true)]
  ∧ fst (get sampleFlagg "constructor" (snd r)) = Ok (VBool true).
Proof. repeat split; reflexivity. Qed.

(** C9 fails on the names of the members of [Object.prototype]: the
    sample registry has no definition for ["toString"], yet
    [getDefault("toString")] returns [null] and
    [isOverridden("toString")] returns [false]; neither throws. *)
Lemma C9_counterexample_inherited_name :
  definitions sampleFlagg !! "toString" = None
  ∧ getDefault sampleFlagg "toString" sampleWorld = (Ok VNull, sampleWorld)
  ∧ isOverridden sampleFlagg "toString" sampleWorld = (Ok false, sampleWorld).
Proof. repeat split; reflexivity. Qed.

(** C9, amended: for a flag name without an own definition in the
    registry, [getDefault] and [isOverridden] throw a [TypeError] (and
    nothing is logged, no storage touched) when [Object.prototype] has no
    member of that name either. When it has one ([toString],
    [constructor], ...), the inherited member is taken for a definition
    without default: [getDefault] returns [null] and [isOverridden] does
    what [isOn] does. *)
Theorem C9_getDefault_isOverridden_without_definition
  (f : Flagg) (flagName : string) (w : World) :
  definitions f !! flagName = None →
  (inheritedFromObject flagName = false →
   getDefault f flagName w = (Throw TypeError, w)
   ∧ isOverridden f flagName w = (Throw TypeError, w))
  ∧ (inheritedFromObject flagName = true →
     getDefault f flagName w = (Ok VNull, w)
     ∧ isOverridden f flagName w = isOn f flagName w).
Proof.
  intros Hown. split; intros Hin.
  - assert (getFlagDef (definitions f) flagName = None) as Hd
      by (by apply getFlagDef_None).
    unfold getDefault, isOverridden. by rewrite Hd.
  - pose proof (getFlagDef_inherited _ _ Hown Hin) as Hd.
    unfold getDefault, isOverridden. rewrite Hd. split; [done|].
    unfold bind at 1. rewrite getFlagType_some. simpl.
    unfold getDefault, bind. rewrite Hd.
    destruct (isOn f flagName w) as [[on|e] w1]; [|done].
    simpl. by destruct on.
Qed.

Lemma C9_witness :
  (getDefault sampleFlagg "x" sampleWorld = (Throw TypeError, sampleWorld)
   ∧ isOverridden sampleFlagg "x" sampleWorld = (Throw TypeError, sampleWorld))
  ∧ (getDefault sampleFlagg "toString" sampleWorld = (Ok VNull, sampleWorld)
     ∧ isOverridden sampleFlagg "toString" sampleWorld
       = isOn sampleFlagg "toString" sampleWorld).
Proof.
  split.
  - apply (C9_getDefault_isOverridden_without_definition sampleFlagg "x"
             sampleWorld); reflexivity.
  - apply (C9_getDefault_isOverridden_without_definition sampleFlagg
             "toString" sampleWorld); reflexivity.
Defined.
(* ===================================================================== *)
(** ** The single-name form with [undefined] *)
(* ===================================================================== *)

(** C10: [set(flagName, undefined)] in the single-name form does
    nothing at all: it returns normally and the world (every storage's
    contents, the record of storage calls, the console) is unchanged,
    whether or not the flag is defined. In the bulk form an [undefined]
    value goes through the write path like any other, where it reaches
    the storage's [set] (last conjunct, on the sample resolver). *)
Theorem C10_set_by_name_undefined_is_noop
  (f : Flagg) (flagName : string) (w : World) :
  set f (FlagName flagName VUndefined) w = (Ok tt, w)
  ∧ set f (Flags [(flagName, VUndefined)]) w
    = (setFlagValue (definitions f) flagName VUndefined (storageMap f) ;;
       ret tt) w
  ∧ calls (snd (set sampleFlagg (Flags [("a", VUndefined)]) sampleWorld))
    = [CallSet 0 "a" VUndefined].
Proof.
  split; [reflexivity|]. split; reflexivity.
Qed.

(* ===================================================================== *)
(** ** Writing and reading back *)
(* ===================================================================== *)

(** C3: for a defined flag whose resolved storage has [remove] (and
    whose [remove] does not throw), [set(flag, v)] with [v] equal to the
    default under the [JSON.stringify] comparison returns normally, has
    called the storage's [remove(flag)] and nothing else, and the storage
    then holds no entry for the flag: its own [get(flag)] is
    [undefined]. *)
Theorem C3_set_default_removes_entry
  (f : Flagg) (w : World) (flagName : string) (v dflt : JsVal)
  (i : nat) (s : Storage.t) :
  fst (getDefault f flagName w) = Ok dflt →
  fst (resolveFlagStorage (getFlagDef (definitions f) flagName)
         (storageMap f) w) = Ok (StorageObject i) →
  heap w !! i = Some s →
  Storage.has_remove s = true →
  Storage.faulty s flagName = false →
  sameJSON v dflt = true →
  ∃ w' s', set f (FlagName flagName v) w = (Ok tt, w')
    ∧ calls w' = (calls w ++ [CallRemove i flagName])%list
    ∧ heap w' !! i = Some s'
    ∧ Storage.contents s' !! flagName = None
    ∧ isNullish (Storage.get s' flagName) = true.
Proof.
  intros Hdf Hres Hh Hcap Hok Hj.
  apply getDefault_fst in Hdf as (d & Hd & ->).
  rewrite Hd in Hres. apply resolveFlagStorage_fst in Hres.
  destruct (setFlagValue_remove _ _ _ _ _ _ v w Hd Hres Hh Hj Hcap Hok)
    as (w' & Hset & Hheap & Hcalls & _).
  exists w', (Storage.removed s flagName). repeat split.
  - unfold set, strictEq.
    rewrite bool_decide_eq_false_2 by (by eapply sameJSON_default_defined).
    done.
  - done.
  - rewrite Hheap. apply list_lookup_insert_eq. by eapply lookup_lt_Some.
  - simpl. apply lookup_delete_eq.
  - by rewrite Storage_get_removed.
Qed.

Lemma C3_witness :
  ∃ w' s', set sampleFlagg (FlagName "a" (VBool false)) overriddenWorld
           = (Ok tt, w')
    ∧ calls w' = (calls overriddenWorld ++ [CallRemove 0 "a"])%list
    ∧ heap w' !! 0 = Some s'
    ∧ Storage.contents s' !! "a" = None
    ∧ isNullish (Storage.get s' "a") = true.
Proof.
  apply (C3_set_default_removes_entry sampleFlagg overriddenWorld "a"
           (VBool false) (VBool false) 0
           (Storage.stored memA "a" (VBool true)));
    reflexivity.
Defined.

(** C1 fails for [null]: on the sample resolver (flag ["a"], default
    [false], a writable in-memory storage), [set("a", null)] stores
    [null] since it differs from the default, but [get("a")] then
    falls back to the default [false], and [isOverridden("a")] is
    [false]. *)
Lemma C1_counterexample_null :
  fst (getDefault sampleFlagg "a" sampleWorld) = Ok (VBool false)
  ∧ sameJSON VNull (VBool false) = false
  ∧ fst (set_in (StorageObject 0) sampleWorld) = Ok true
  ∧ fst (set sampleFlagg (FlagName "a" VNull) sampleWorld) = Ok tt
  ∧ let w' := snd (set sampleFlagg (FlagName "a" VNull) sampleWorld) in
    calls w' = [CallSet 0 "a" VNull]
    ∧ fst (get sampleFlagg "a" w') = Ok (VBool false)
    ∧ fst (get sampleFlagg "a" w') ≠ Ok VNull
    ∧ fst (isOverridden sampleFlagg "a" w') = Ok false.
Proof.
  repeat split; try reflexivity. vm_compute. discriminate.
Qed.

(** C1, amended: for a defined flag whose resolved storage has [set]
    (and whose [set] does not throw), after [set(flag, v)] with [v]
    neither [null] nor [undefined] and different from the default under
    the [JSON.stringify] comparison, [get(flag)] returns [v];
    [isOverridden(flag)] returns [true] for a string or select flag, and
    for a boolean flag it returns whether the truthiness of [v] differs
    from that of the default (so [true] whenever [v] and the default are
    both booleans). *)
Theorem C1_set_then_get_and_isOverridden
  (f : Flagg) (w : World) (flagName : string) (v dflt : JsVal)
  (ty : FlagType) (i : nat) (s : Storage.t) :
  fst (getDefault f flagName w) = Ok dflt →
  fst (getFlagType (getFlagDef (definitions f) flagName) w) = Ok ty →
  fst (resolveFlagStorage (getFlagDef (definitions f) flagName)
         (storageMap f) w) = Ok (StorageObject i) →
  heap w !! i = Some s →
  Storage.has_set s = true →
  Storage.faulty s flagName = false →
  isNullish v = false →
  sameJSON v dflt = false →
  ∃ w', set f (FlagName flagName v) w = (Ok tt, w')
    ∧ fst (get f flagName w') = Ok v
    ∧ fst (isOverridden f flagName w')
      = Ok (if bool_decide (ty = Boolean)
            then xorb (truthy v) (truthy dflt) else true)
    ∧ (∀ b b', v = VBool b → dflt = VBool b' →
       fst (isOverridden f flagName w') = Ok true).
Proof.
  intros Hdf Hty Hres Hh Hcap Hok Hv Hj.
  apply getDefault_fst in Hdf as (d & Hd & ->).
  rewrite Hd in Hres, Hty. apply resolveFlagStorage_fst in Hres.
  rewrite getFlagType_some in Hty. simpl in Hty. injection Hty as <-.
  destruct (setFlagValue_set _ _ _ _ _ _ v w Hd Hres Hh Hj Hcap Hok)
    as (w' & Hset & Hheap & _).
  assert (heap w' !! i = Some (Storage.stored s flagName v)) as Hh'.
  { rewrite Hheap. apply list_lookup_insert_eq. by eapply lookup_lt_Some. }
  assert (resolvedStorage (heap w') d (storageMap f) = StorageObject i)
    as Hpost.
  { by rewrite Hheap, (resolvedStorage_stored _ i s). }
  destruct (getResolvedFlagValue_defined _ _ _ _ _ _ w' Hd Hpost Hh')
    as (w1 & Hget & _).
  destruct (isOverridden_defined f _ _ _ _ w' Hd Hpost Hh')
    as (w2 & Hov & _).
  rewrite Storage_get_stored, Hv in Hget, Hov.
  assert (fst (isOverridden f flagName w')
          = Ok (if bool_decide (flagTypeSpec d = Boolean)
                then xorb (truthy v) (truthy (defaultOf d)) else true)) as Hres'.
  { rewrite Hov. simpl. case_bool_decide.
    - by destruct (truthy v), (truthy (defaultOf d)).
    - unfold strictEq.
      rewrite bool_decide_eq_false_2 by (by apply sameJSON_false_neq). done. }
  exists w'. split; [|split; [|split]].
  - unfold set. destruct v; done.
  - unfold get. by rewrite Hget.
  - done.
  - intros b b' -> Hb. rewrite Hres', Hb. simpl.
    rewrite Hb in Hj. destruct b, b'; try done; by case_bool_decide.
Qed.

Lemma C1_witness :
  ∃ w', set sampleFlagg (FlagName "a" (VBool true)) sampleWorld = (Ok tt, w')
    ∧ fst (get sampleFlagg "a" w') = Ok (VBool true)
    ∧ fst (isOverridden sampleFlagg "a" w')
      = Ok (if bool_decide (Boolean = Boolean)
            then xorb (truthy (VBool true)) (truthy (VBool false)) else true)
    ∧ (∀ b b', VBool true = VBool b → VBool false = VBool b' →
       fst (isOverridden sampleFlagg "a" w') = Ok true).
Proof.
  apply (C1_set_then_get_and_isOverridden sampleFlagg sampleWorld "a"
           (VBool true) (VBool false) Boolean 0 memA);
    reflexivity.
Defined.

(* ===================================================================== *)
(** ** The resolved value *)
(* ===================================================================== *)

(** C5 fails on a definition without a default: the flag is defined,
    nothing is stored for it, and [get] returns [null]. *)
Lemma C5_counterexample_null_default :
  let fw := flagg (optsA {[ "a" := bareFlag ]}) in
  getFlagDef (definitions (fst fw)) "a" = Some bareFlag
  ∧ get (fst fw) "a" (snd fw) = (Ok VNull, snd fw).
Proof. split; reflexivity. Qed.

(** C5, amended: [get] returns [null] for a name under which the
    lookup of the definition finds nothing (no own definition in the
    registry and no member of [Object.prototype]), and also when a
    definition is found whose default is absent or [null] while its
    storage holds no value other than [null] or [undefined]. Whenever a
    definition is found and its storage resolves to a storage object,
    [get] returns the stored value when that is neither [null] nor
    [undefined], else the default ([null] when absent); the result is
    never [undefined], and it is [null] exactly in the case above, so
    with a boolean or string default it is a boolean or a string. *)
Theorem C5_get_null_cases (f : Flagg) (w : World) (flagName : string) :
  (getFlagDef (definitions f) flagName = None →
   get f flagName w = (Ok VNull, w))
  ∧ (∀ (d : FlagDefinition.t) (i : nat) (s : Storage.t),
       getFlagDef (definitions f) flagName = Some d →
       fst (resolveFlagStorage (Some d) (storageMap f) w)
       = Ok (StorageObject i) →
       heap w !! i = Some s →
       ∃ v dflt, fst (get f flagName w) = Ok v
         ∧ fst (getDefault f flagName w) = Ok dflt
         ∧ v = (if isNullish (Storage.get s flagName) then dflt
                else Storage.get s flagName)
         ∧ v ≠ VUndefined
         ∧ (v = VNull ↔ isNullish (Storage.get s flagName) = true
                         ∧ isNullish (FlagDefinition.default d) = true)).
Proof.
  split; [apply get_unknown|].
  intros d i s Hd Hres Hh. apply resolveFlagStorage_fst in Hres.
  destruct (getResolvedFlagValue_defined _ _ _ _ _ _ w Hd Hres Hh)
    as (w1 & Hget & _).
  eexists _, (defaultOf d). split; [unfold get; by rewrite Hget|].
  split; [unfold getDefault; by rewrite Hd|]. split; [done|].
  unfold defaultOf, strictEq.
  destruct (Storage.get s flagName) as [| |b|x];
    destruct (FlagDefinition.default d) as [| |b'|x']; cbn.
    all: try case_bool_decide; intuition congruence.
Qed.

Lemma C5_witness :
  get sampleFlagg "x" overriddenWorld = (Ok VNull, overriddenWorld)
  ∧ ∃ v dflt, fst (get sampleFlagg "a" overriddenWorld) = Ok v
    ∧ fst (getDefault sampleFlagg "a" overriddenWorld) = Ok dflt
    ∧ v = (if isNullish (Storage.get (Storage.stored memA "a" (VBool true)) "a")
           then dflt
           else Storage.get (Storage.stored memA "a" (VBool true)) "a")
    ∧ v ≠ VUndefined
    ∧ (v = VNull ↔
       isNullish (Storage.get (Storage.stored memA "a" (VBool true)) "a") = true
       ∧ isNullish (FlagDefinition.default boolFlag) = true).
Proof.
  split.
  - apply (proj1 (C5_get_null_cases sampleFlagg overriddenWorld "x")).
    reflexivity.
  - apply (proj2 (C5_get_null_cases sampleFlagg overriddenWorld "a") boolFlag 0
             (Storage.stored memA "a" (VBool true)));
      reflexivity.
Defined.
(* ===================================================================== *)
(** ** Override detection *)
(* ===================================================================== *)

(** C6: for a defined flag (whose storage resolves), the flag type the
    code computes is the one of section 4.5, and [isOverridden] returns
    [true] iff, for the boolean type, [isOn(flag)] differs from the
    boolean coercion of the default, and for the string and select
    types, [get(flag)] differs from [getDefault(flag)]. *)
Theorem C6_isOverridden_by_flag_type
  (f : Flagg) (w : World) (flagName : string) (d : FlagDefinition.t)
  (i : nat) (s : Storage.t) :
  getFlagDef (definitions f) flagName = Some d →
  fst (resolveFlagStorage (Some d) (storageMap f) w) = Ok (StorageObject i) →
  heap w !! i = Some s →
  ∃ ty on v dflt b,
    fst (getFlagType (getFlagDef (definitions f) flagName) w) = Ok ty
    ∧ ty = flagTypeSpec d
    ∧ fst (isOn f flagName w) = Ok on
    ∧ fst (get f flagName w) = Ok v
    ∧ fst (getDefault f flagName w) = Ok dflt
    ∧ fst (isOverridden f flagName w) = Ok b
    ∧ (b = true ↔ match ty with
                  | Boolean => on ≠ truthy dflt
                  | StringType | Select => v ≠ dflt
                  end).
Proof.
  intros Hd Hres Hh. apply resolveFlagStorage_fst in Hres.
  destruct (getResolvedFlagValue_defined _ _ _ _ _ _ w Hd Hres Hh)
    as (w1 & Hget & _).
  destruct (isOverridden_defined f _ _ _ _ w Hd Hres Hh) as (w2 & Hov & _).
  set (v := if isNullish (Storage.get s flagName) then defaultOf d
            else Storage.get s flagName) in *.
  exists (flagTypeSpec d), (truthy v), v, (defaultOf d). eexists.
  split; [by rewrite Hd, getFlagType_some|]. split; [done|].
  split; [unfold isOn, get, bind; by rewrite Hget|].
  split; [unfold get; by rewrite Hget|].
  split; [unfold getDefault; by rewrite Hd|].
  split; [by rewrite Hov|].
  unfold strictEq. clear Hov Hget.
  destruct (flagTypeSpec d); simpl.
  - case_bool_decide; naive_solver.
  - case_bool_decide; naive_solver.
  - destruct (truthy v), (truthy (defaultOf d)); naive_solver.
Qed.

Lemma C6_witness :
  ∃ ty on v dflt b,
    fst (getFlagType (getFlagDef (definitions sampleFlagg) "a") overriddenWorld)
    = Ok ty
    ∧ ty = flagTypeSpec boolFlag
    ∧ fst (isOn sampleFlagg "a" overriddenWorld) = Ok on
    ∧ fst (get sampleFlagg "a" overriddenWorld) = Ok v
    ∧ fst (getDefault sampleFlagg "a" overriddenWorld) = Ok dflt
    ∧ fst (isOverridden sampleFlagg "a" overriddenWorld) = Ok b
    ∧ (b = true ↔ match ty with
                  | Boolean => on ≠ truthy dflt
                  | StringType | Select => v ≠ dflt
                  end).
Proof.
  apply (C6_isOverridden_by_flag_type sampleFlagg overriddenWorld "a"
           boolFlag 0 (Storage.stored memA "a" (VBool true)));
    reflexivity.
Defined.

(* ===================================================================== *)
(** ** Bulk set *)
(* ===================================================================== *)

Lemma forEach_app {A} (l1 l2 : list A) (g : A → M unit) w :
  forEach (l1 ++ l2) g w = (forEach l1 g ;; forEach l2 g) w.
Proof.
  revert w. induction l1 as [|x l1 IH]; intros w; [done|].
  simpl. unfold bind. destruct (g x w) as [[[]|e] w']; [|done].
  rewrite IH. done.
Qed.

Lemma set_Flags_cons f k v l w :
  set f (Flags ((k, v) :: l)) w
  = (setFlagValue (definitions f) k v (storageMap f) ;; set f (Flags l)) w.
Proof. reflexivity. Qed.

Lemma set_Flags_app f l1 l2 w :
  set f (Flags (l1 ++ l2)) w = (set f (Flags l1) ;; set f (Flags l2)) w.
Proof. apply forEach_app. Qed.




(* ===================================================================== *)
(** ** The storage map and storage resolution *)
(* ===================================================================== *)

Lemma makeStorageMap_from (_storage : OneOrMany Storage.t) :
  makeStorageMap _storage
  = storageMapFrom
      {[ DEFAULT_STORAGE_NAME := (λ _, 0) <$> head (makeArray _storage) ]}
      (makeArray _storage).
Proof. reflexivity. Qed.

Lemma storageMapFrom_snoc init l x :
  storageMapFrom init (l ++ [x])
  = <[Storage.name x := Some (length l)]> (storageMapFrom init l).
Proof.
  unfold storageMapFrom. rewrite imap_app, foldl_app. simpl.
  by rewrite Nat.add_0_r.
Qed.

(** A key that is no storage's name keeps its initial binding. *)
Lemma storageMapFrom_other init l key :
  key ∉ Storage.name <$> l →
  storageMapFrom init l !! key = init !! key.
Proof.
  induction l as [|x l IH] using rev_ind; intros Hk; [done|].
  rewrite storageMapFrom_snoc. rewrite fmap_app in Hk.
  apply not_elem_of_app in Hk as [Hl Hx].
  apply not_elem_of_cons in Hx as [Hne _].
  rewrite lookup_insert_ne by done.
  by apply IH.
Qed.


(** An own property of the storage map is what a lookup gives. *)
Lemma lookupStorage_own (h : list Storage.t) sm key i :
  sm !! key = Some (Some i) → lookupStorage h sm key = StorageObject i.
Proof. intros H. unfold lookupStorage. by rewrite H. Qed.



(** A later storage takes the name of an earlier one with the same
    name, and a storage named ["_default"] takes the default entry. *)
Example makeStorageMap_shadowing :
  lookupStorage [memA; memB; flakyA]
    (makeStorageMap (Many [memA; memB; flakyA])) "A" = StorageObject 2
  ∧ lookupStorage [memA; Storage.mk "_default" true true [] ∅]
      (makeStorageMap (Many [memA; Storage.mk "_default" true true [] ∅]))
      "_default" = StorageObject 1.
Proof. split; reflexivity. Qed.

(** A definition without a storage field is looked up under the key
    ["undefined"]. *)
Example resolveFlagStorage_undefined_key :
  fst (resolveFlagStorage (Some boolFlag)
         (makeStorageMap (Many [memA; Storage.mk "undefined" true true [] ∅]))
         sampleWorld) = Ok (StorageObject 1).
Proof. reflexivity. Qed.

(** A storage field that is the name of a member of [Object.prototype]
    finds that member: it is returned as the storage, nothing is logged,
    reading through it throws and writing through it only warns. *)
Example resolveFlagStorage_inherited_member :
  let d := FlagDefinition.mk (VBool false) None (Some "toString") in
  let f := fst (flagg (optsA {[ "a" := d ]})) in
  resolveFlagStorage (Some d) (storageMap f) sampleWorld
  = (Ok (OtherObject "toString"), sampleWorld)
  ∧ get f "a" sampleWorld = (Throw TypeError, sampleWorld)
  ∧ fst (set f (FlagName "a" (VBool true)) sampleWorld) = Ok tt
  ∧ console (snd (set f (FlagName "a" (VBool true)) sampleWorld))
    = [ReadOnlyStorage "toString"]
  ∧ calls (snd (set f (FlagName "a" (VBool true)) sampleWorld)) = [].
Proof. repeat split; reflexivity. Qed.

(** A storage named ["__proto__"] becomes the prototype of the storage
    map: its own name denotes it, and its members show through under
    their names. *)
Example makeStorageMap_proto_storage :
  let arr := [memA; Storage.mk "__proto__" true true [] ∅] in
  lookupStorage arr (makeStorageMap (Many arr)) "__proto__" = StorageObject 1
  ∧ lookupStorage arr (makeStorageMap (Many arr)) "get" = OtherObject "get"
  ∧ lookupStorage arr (makeStorageMap (Many arr)) "name"
    = StringValue "__proto__"
  ∧ lookupStorage arr (makeStorageMap (Many arr)) "other" = NoValue.
Proof. repeat split; reflexivity. Qed.



(* ===================================================================== *)
(** ** Reads and writes leave the microtask queue alone *)
(* ===================================================================== *)

Create HintDb queue.

Lemma keepsQueue_ret {A} (a : A) : keepsQueue (ret a).
Proof. intros w r w' [= _ <-]. done. Qed.

Lemma keepsQueue_throw {A} e : keepsQueue (@throw A e).
Proof. intros w r w' [= _ <-]. done. Qed.

Lemma keepsQueue_bind {A B} (c : M A) (k : A → M B) :
  keepsQueue c → (∀ a, keepsQueue (k a)) → keepsQueue (bind c k).
Proof.
  intros Hc Hk w r w'. unfold bind.
  destruct (c w) as [[a|e] w1] eqn:Hcw.
  - intros Hkw. destruct (Hc _ _ _ Hcw) as [<- <-]. by eapply Hk.
  - intros [= <- <-]. by eapply Hc.
Qed.

Lemma keepsQueue_if {A} (b : bool) (c1 c2 : M A) :
  keepsQueue c1 → keepsQueue c2 → keepsQueue (if b then c1 else c2).
Proof. by destruct b. Qed.

Lemma keepsQueue_warn msg : keepsQueue (warn msg).
Proof. intros w r w' [= _ <-]. done. Qed.

Lemma keepsQueue_recordCall c : keepsQueue (recordCall c).
Proof. intros w r w' [= _ <-]. done. Qed.

Lemma keepsQueue_deref storage : keepsQueue (deref storage).
Proof.
  intros w r w'. unfold deref.
  destruct storage as [|i|n|x]; try (by intros [= _ <-]).
  destruct (heap w !! i); by intros [= _ <-].
Qed.

Lemma keepsQueue_readStorageMap sm key : keepsQueue (readStorageMap sm key).
Proof. intros w r w' [= _ <-]. done. Qed.

Lemma keepsQueue_method_in member storage :
  keepsQueue (method_in member storage).
Proof.
  unfold method_in. destruct storage; try apply keepsQueue_ret;
    (apply keepsQueue_bind; [apply keepsQueue_deref|intros o]);
    apply keepsQueue_ret.
Qed.

Lemma keepsQueue_storage_name storage : keepsQueue (storage_name storage).
Proof.
  unfold storage_name. destruct storage; try apply keepsQueue_ret;
    (apply keepsQueue_bind; [apply keepsQueue_deref|intros o]);
    apply keepsQueue_ret.
Qed.

#[local] Hint Resolve keepsQueue_ret keepsQueue_throw keepsQueue_warn
  keepsQueue_recordCall keepsQueue_deref keepsQueue_if : queue.
#[local] Hint Extern 2 (keepsQueue (bind _ _)) =>
  apply keepsQueue_bind; [|intros ?] : queue.

Lemma keepsQueue_putHeap_with (h : World → list Storage.t) :
  keepsQueue (λ w, putHeap (h w) w).
Proof. intros w r w' [= _ <-]. done. Qed.

Lemma keepsQueue_storage_set storage key v :
  keepsQueue (storage_set storage key v).
Proof.
  unfold storage_set. apply keepsQueue_bind; [auto with queue|intros o].
  apply keepsQueue_bind; [auto with queue|intros _].
  apply keepsQueue_if; [auto with queue|].
  apply (keepsQueue_putHeap_with
           (λ w, <[fst o := Storage.stored (snd o) key v]> (heap w))).
Qed.

Lemma keepsQueue_storage_remove storage key :
  keepsQueue (storage_remove storage key).
Proof.
  unfold storage_remove. apply keepsQueue_bind; [auto with queue|intros o].
  apply keepsQueue_bind; [auto with queue|intros _].
  apply keepsQueue_if; [auto with queue|].
  apply (keepsQueue_putHeap_with
           (λ w, <[fst o := Storage.removed (snd o) key]> (heap w))).
Qed.

Lemma keepsQueue_resolveFlagStorage flagDef sm :
  keepsQueue (resolveFlagStorage flagDef sm).
Proof.
  unfold resolveFlagStorage.
  apply keepsQueue_bind;
    [unfold property; destruct flagDef; auto with queue|intros storageName].
  apply keepsQueue_bind; [apply keepsQueue_readStorageMap|intros found].
  apply keepsQueue_if; [auto with queue|].
  apply keepsQueue_bind; [|intros _; apply keepsQueue_readStorageMap].
  destruct storageName; auto with queue.
Qed.

Lemma keepsQueue_getFlagDefaultValue flagDef :
  keepsQueue (getFlagDefaultValue flagDef).
Proof.
  unfold getFlagDefaultValue.
  apply keepsQueue_bind;
    [unfold property; destruct flagDef; auto with queue|intros d].
  auto with queue.
Qed.

#[local] Hint Resolve keepsQueue_storage_set keepsQueue_storage_remove
  keepsQueue_resolveFlagStorage keepsQueue_getFlagDefaultValue : queue.

Lemma keepsQueue_setFlagValue defs name v sm :
  keepsQueue (setFlagValue defs name v sm).
Proof.
  unfold setFlagValue, remove_in, set_in.
  apply keepsQueue_bind; [auto with queue|intros storage].
  apply keepsQueue_bind; [auto with queue|intros defaultValue].
  apply keepsQueue_if;
    (apply keepsQueue_bind; [apply keepsQueue_method_in|intros can]);
    apply keepsQueue_if; auto with queue;
    (apply keepsQueue_bind; [apply keepsQueue_storage_name|intros n]);
    auto with queue.
Qed.

Lemma keepsQueue_forEach {A} (l : list A) (g : A → M unit) :
  (∀ x, keepsQueue (g x)) → keepsQueue (forEach l g).
Proof.
  intros Hg. induction l as [|x l IH]; simpl; [auto with queue|].
  apply keepsQueue_bind; auto.
Qed.

Lemma keepsQueue_set f arg : keepsQueue (set f arg).
Proof.
  destruct arg as [name v|entries]; simpl.
  - apply keepsQueue_if; [apply keepsQueue_setFlagValue|auto with queue].
  - apply keepsQueue_forEach. intros e. apply keepsQueue_setFlagValue.
Qed.



(* ===================================================================== *)
(** ** Hydration *)
(* ===================================================================== *)


(** The continuation of a fulfilled fetch is the bulk [set] of the
    fetched entries; an exception in it is swallowed as an unhandled
    rejection. *)
Lemma runMicrotask_fulfilled f w values rest :
  microtasks w = Fulfilled values :: rest →
  runMicrotask f w
  = match set f (Flags values)
            (mkWorld (heap w) (console w) (calls w) rest (unhandled w)) with
    | (Ok _, w2) => w2
    | (Throw e, w2) => unhandledRejection e w2
    end.
Proof. intros H. unfold runMicrotask. by rewrite H. Qed.

(** Hydrating a key that has no definition (here the registry is the
    default empty one) throws inside the continuation: nothing is
    written and the rejection is left unhandled. *)
Example hydration_unknown_key_unhandled :
  let fw := flagg (FlaggOpts.mk (One memA) None (One sourceA)) in
  let w1 := settle (fst fw) (snd fw) in
  unhandled w1 = [TypeError] ∧ calls w1 = [] ∧ heap w1 = [memA].
Proof. repeat split; reflexivity. Qed.





(* ===================================================================== *)
(** ** Relations kept by computations *)
(* ===================================================================== *)

#[global] Instance sameButConsole_preorder : PreOrder sameButConsole.
Proof.
  split; [exact sameButConsole_refl|exact sameButConsole_trans].
Qed.

Section keeps.
  Context (R : World → World → Prop) `{!PreOrder R}.

Lemma keeps_ret {A} (a : A) : keeps R (ret a).
Proof. intros w r w' [= _ <-]. reflexivity. Qed.

Lemma keeps_throw {A} e : keeps R (@throw A e).
Proof. intros w r w' [= _ <-]. reflexivity. Qed.

Lemma keeps_bind {A B} (c : M A) (k : A → M B) :
  keeps R c → (∀ a, keeps R (k a)) → keeps R (bind c k).
Proof.
  intros Hc Hk w r w'. unfold bind.
  destruct (c w) as [[a|e] w1] eqn:Hcw.
  - intros Hkw. etrans; [by eapply Hc|by eapply Hk].
  - intros [= <- <-]. by eapply Hc.
Qed.

Lemma keeps_if {A} (b : bool) (c1 c2 : M A) :
  keeps R c1 → keeps R c2 → keeps R (if b then c1 else c2).
Proof. by destruct b. Qed.

Lemma keeps_property {A} flagDef (p : FlagDefinition.t → A) :
  keeps R (property flagDef p).
Proof.
  unfold property. destruct flagDef; [apply keeps_ret|apply keeps_throw].
Qed.

Lemma keeps_deref storage : keeps R (deref storage).
Proof.
  intros w r w'. unfold deref.
  destruct storage as [|i|n|x]; try (intros [= _ <-]; reflexivity).
  destruct (heap w !! i); intros [= _ <-]; reflexivity.
Qed.

Lemma keeps_readStorageMap sm key : keeps R (readStorageMap sm key).
Proof. intros w r w' [= _ <-]. reflexivity. Qed.

Lemma keeps_method_in member storage : keeps R (method_in member storage).
Proof.
  unfold method_in. destruct storage; try apply keeps_ret;
    (apply keeps_bind; [apply keeps_deref|intros o; apply keeps_ret]).
Qed.

Lemma keeps_storage_name storage : keeps R (storage_name storage).
Proof.
  unfold storage_name. destruct storage; try apply keeps_ret;
    (apply keeps_bind; [apply keeps_deref|intros o; apply keeps_ret]).
Qed.

Lemma keeps_forEach {A} (l : list A) (g : A → M unit) :
  (∀ x, keeps R (g x)) → keeps R (forEach l g).
Proof.
  intros Hg. induction l as [|x l IH]; simpl; [apply keeps_ret|].
  apply keeps_bind; auto.
Qed.

Lemma keeps_reduce {A B} (l : list A) (g : B → A → M B) acc :
  (∀ b x, keeps R (g b x)) → keeps R (reduce l g acc).
Proof.
  intros Hg. revert acc. induction l as [|x l IH]; intros acc; simpl;
    [apply keeps_ret|].
  apply keeps_bind; auto.
Qed.

End keeps.

Lemma keeps_mono {A} (R R' : World → World → Prop) (c : M A) :
  (∀ w w', R w w' → R' w w') → keeps R c → keeps R' c.
Proof. intros HR Hc w r w' Hcw. apply HR. by eapply Hc. Qed.

(* ===================================================================== *)
(** ** Reads do not write *)
(* ===================================================================== *)

Create HintDb reads.

#[local] Hint Resolve keeps_ret keeps_throw keeps_property keeps_deref
  keeps_if : reads.
#[local] Hint Extern 2 (keeps _ (bind _ _)) =>
  apply keeps_bind; [typeclasses eauto | |intros ?] : reads.

Lemma reads_warn msg : keeps sameButConsole (warn msg).
Proof. intros w r w' [= _ <-]. by split. Qed.

Lemma reads_storage_get storage key :
  keeps sameButConsole (storage_get storage key).
Proof. unfold storage_get. auto with reads typeclass_instances. Qed.

Lemma reads_resolveFlagStorage flagDef sm :
  keeps sameButConsole (resolveFlagStorage flagDef sm).
Proof.
  unfold resolveFlagStorage.
  apply keeps_bind; [apply _|auto with reads typeclass_instances|].
  intros storageName.
  apply keeps_bind; [apply _|apply keeps_readStorageMap, _|intros found].
  apply keeps_if; [auto with reads typeclass_instances|].
  apply keeps_bind; [apply _| |intros _; apply keeps_readStorageMap, _].
  destruct storageName;
    [apply reads_warn|auto with reads typeclass_instances].
Qed.

Lemma reads_getFlagDefaultValue flagDef :
  keeps sameButConsole (getFlagDefaultValue flagDef).
Proof. unfold getFlagDefaultValue. auto with reads typeclass_instances. Qed.

Lemma reads_getFlagType flagDef : keeps sameButConsole (getFlagType flagDef).
Proof.
  unfold getFlagType.
  apply keeps_bind; [apply _|auto with reads typeclass_instances|].
  intros [o|]; auto with reads typeclass_instances.
Qed.

#[local] Hint Resolve reads_warn reads_storage_get reads_resolveFlagStorage
  reads_getFlagDefaultValue reads_getFlagType : reads.

Lemma reads_get f name : keeps sameButConsole (get f name).
Proof.
  unfold get, getResolvedFlagValue, getFlagValue.
  destruct (getFlagDef (definitions f) name);
    auto 8 with reads typeclass_instances.
Qed.

Lemma reads_getDefault f name : keeps sameButConsole (getDefault f name).
Proof. unfold getDefault. auto with reads. Qed.

Lemma reads_isOn f name : keeps sameButConsole (isOn f name).
Proof.
  unfold isOn.
  apply keeps_bind; [apply _|apply reads_get|auto with reads typeclass_instances].
Qed.

#[local] Hint Resolve reads_get reads_getDefault reads_isOn : reads.

Lemma reads_isOverridden f name : keeps sameButConsole (isOverridden f name).
Proof.
  unfold isOverridden.
  apply keeps_bind; [apply _|auto with reads|intros ty].
  apply keeps_if; auto 8 with reads typeclass_instances.
Qed.

#[local] Hint Resolve reads_isOverridden : reads.

Lemma reads_getAllResolved f keys :
  keeps sameButConsole (getAllResolved f keys).
Proof.
  unfold getAllResolved. apply keeps_reduce; [apply _|].
  intros acc name. auto with reads typeclass_instances.
Qed.

Lemma reads_getAllOverridden f keys :
  keeps sameButConsole (getAllOverridden f keys).
Proof.
  unfold getAllOverridden. apply keeps_reduce; [apply _|].
  intros acc name.
  apply keeps_bind; [apply _|auto with reads|intros o].
  apply keeps_if; auto with reads typeclass_instances.
Qed.

(** X1: no read of the public surface writes. Whatever [get],
    [getDefault], [isOn], [isOverridden], [getAllResolved] and
    [getAllOverridden] return or throw, the storages, the record of
    storage calls, the microtask queue and the unhandled rejections are
    as before; only the console may have grown. *)
Theorem reads_never_write (f : Flagg) (name : string) (keys : list string) :
  keeps sameButConsole (get f name)
  ∧ keeps sameButConsole (getDefault f name)
  ∧ keeps sameButConsole (isOn f name)
  ∧ keeps sameButConsole (isOverridden f name)
  ∧ keeps sameButConsole (getAllResolved f keys)
  ∧ keeps sameButConsole (getAllOverridden f keys).
Proof.
  split_and!.
  - apply reads_get.
  - apply reads_getDefault.
  - apply reads_isOn.
  - apply reads_isOverridden.
  - apply reads_getAllResolved.
  - apply reads_getAllOverridden.
Qed.

(* ===================================================================== *)
(** ** What a write can touch *)
(* ===================================================================== *)

Lemma sameStorageBut_refl K s : sameStorageBut K s s.
Proof. by split. Qed.

Lemma sameStorageBut_trans K s1 s2 s3 :
  sameStorageBut K s1 s2 → sameStorageBut K s2 s3 → sameStorageBut K s1 s3.
Proof.
  intros [H1 H2 H3 H4 H5] [G1 G2 G3 G4 G5]. split; try congruence.
  intros k Hk. by rewrite G5, H5.
Qed.

Lemma sameStorageBut_mono (K K' : string → Prop) s s' :
  (∀ k, K k → K' k) → sameStorageBut K s s' → sameStorageBut K' s s'.
Proof. intros HK [H1 H2 H3 H4 H5]. split; try done. intros k Hk. auto. Qed.

#[global] Instance touchesOnly_preorder T K : PreOrder (touchesOnly T K).
Proof.
  split.
  - intros w. split; [done|]. intros j s Hj. exists s.
    split; [done|]. split; [apply sameStorageBut_refl|done].
  - intros w1 w2 w3 [L1 S1] [L2 S2]. split; [congruence|].
    intros j s Hj.
    destruct (S1 j s Hj) as (s2 & Hj2 & Hs2 & Hn2).
    destruct (S2 j s2 Hj2) as (s3 & Hj3 & Hs3 & Hn3).
    exists s3. split; [done|]. split; [by eapply sameStorageBut_trans|].
    intros HT. rewrite (Hn3 HT). auto.
Qed.

Lemma touchesOnly_mono (T T' : nat → Prop) (K K' : string → Prop) w w' :
  (∀ j, T j → T' j) → (∀ k, K k → K' k) →
  touchesOnly T K w w' → touchesOnly T' K' w w'.
Proof.
  intros HT HK [L S]. split; [done|]. intros j s Hj.
  destruct (S j s Hj) as (s' & Hj' & Hs' & Hn).
  exists s'. split; [done|]. split; [by eapply sameStorageBut_mono|].
  intros HnT. apply Hn. auto.
Qed.

Lemma touchesOnly_heap_eq T K w w' : heap w' = heap w → touchesOnly T K w w'.
Proof.
  intros H. split; [by rewrite H|]. intros j s Hj. exists s. rewrite H.
  split; [done|]. split; [apply sameStorageBut_refl|done].
Qed.

Lemma touchesOnly_sameButConsole T K w w' :
  sameButConsole w w' → touchesOnly T K w w'.
Proof. intros H. apply touchesOnly_heap_eq. apply H. Qed.

Lemma touchesOnly_insert (T : nat → Prop) (K : string → Prop) w w' i s s' :
  heap w !! i = Some s → heap w' = <[i := s']> (heap w) →
  T i → sameStorageBut K s s' → touchesOnly T K w w'.
Proof.
  intros Hi Hw HT Hs. split; [by rewrite Hw, length_insert|].
  intros j s0 Hj. rewrite Hw. destruct (decide (j = i)) as [->|Hne].
  - exists s'. rewrite list_lookup_insert_eq by (by eapply lookup_lt_Some).
    split; [done|]. assert (s0 = s) as -> by congruence. by split.
  - exists s0. rewrite list_lookup_insert_ne by done.
    split; [done|]. split; [apply sameStorageBut_refl|done].
Qed.

Lemma sameStorageBut_stored s key v :
  sameStorageBut (λ k, k = key) s (Storage.stored s key v).
Proof. split; try done. intros k Hk. simpl. by rewrite lookup_insert_ne. Qed.

Lemma sameStorageBut_removed s key :
  sameStorageBut (λ k, k = key) s (Storage.removed s key).
Proof. split; try done. intros k Hk. simpl. by rewrite lookup_delete_ne. Qed.

Lemma writes_storage_set storage key v :
  keeps (touchesOnly (λ j, storage = StorageObject j) (λ k, k = key))
        (storage_set storage key v).
Proof.
  intros w r w'. unfold storage_set, bind, deref.
  destruct storage as [|i|n|x]; try (intros [= _ <-]; reflexivity).
  destruct (heap w !! i) as [s|] eqn:Hh; [|intros [= _ <-]; reflexivity].
  simpl. destruct (Storage.faulty s key); intros [= _ <-].
  - by apply touchesOnly_heap_eq.
  - eapply touchesOnly_insert;
      [exact Hh|done|done|apply sameStorageBut_stored].
Qed.

Lemma writes_storage_remove storage key :
  keeps (touchesOnly (λ j, storage = StorageObject j) (λ k, k = key))
        (storage_remove storage key).
Proof.
  intros w r w'. unfold storage_remove, bind, deref.
  destruct storage as [|i|n|x]; try (intros [= _ <-]; reflexivity).
  destruct (heap w !! i) as [s|] eqn:Hh; [|intros [= _ <-]; reflexivity].
  simpl. destruct (Storage.faulty s key); intros [= _ <-].
  - by apply touchesOnly_heap_eq.
  - eapply touchesOnly_insert;
      [exact Hh|done|done|apply sameStorageBut_removed].
Qed.

Lemma writes_of_reads {A} T K (c : M A) :
  keeps sameButConsole c → keeps (touchesOnly T K) c.
Proof. apply keeps_mono. apply touchesOnly_sameButConsole. Qed.

Lemma reads_method_in member storage :
  keeps sameButConsole (method_in member storage).
Proof. apply keeps_method_in, _. Qed.

Lemma reads_readOnlyWarning storage :
  keeps sameButConsole
    (let* n := storage_name storage in warn (ReadOnlyStorage n)).
Proof.
  apply keeps_bind; [apply _|apply keeps_storage_name, _|intros n].
  apply reads_warn.
Qed.

Lemma setFlagValue_touchesOnly defs name v sm w r w' :
  setFlagValue defs name v sm w = (r, w') →
  touchesOnly
    (λ j, fst (resolveFlagStorage (getFlagDef defs name) sm w) = Ok (StorageObject j))
    (λ k, k = name) w w'.
Proof.
  unfold setFlagValue.
  destruct (getFlagDef defs name) as [d|]; [|intros [= _ <-]; reflexivity].
  destruct (resolveFlagStorage_some d sm w) as (w1 & Hres & Hs & _).
  unfold bind at 1. rewrite Hres. simpl. clear Hres. intros Hrest.
  etrans; [by apply touchesOnly_sameButConsole|]. clear Hs.
  eapply (touchesOnly_mono (λ j, resolvedStorage (heap w) d sm = StorageObject j)
            _ (λ k, k = name)); [by intros j ->|done|].
  revert w1 r w' Hrest. generalize (resolvedStorage (heap w) d sm). intros storage.
  change (keeps (touchesOnly (λ j, storage = StorageObject j) (λ k, k = name))
    (let* defaultValue := getFlagDefaultValue (Some d) in
     if sameJSON v defaultValue then
       let* can := remove_in storage in
       if can then storage_remove storage name
       else let* n := storage_name storage in warn (ReadOnlyStorage n)
     else
       let* can := set_in storage in
       if can then storage_set storage name v
       else let* n := storage_name storage in warn (ReadOnlyStorage n))).
  apply keeps_bind; [apply _| |intros dv].
  { apply writes_of_reads, reads_getFlagDefaultValue. }
  apply keeps_if.
  - apply keeps_bind; [apply _| |intros can].
    { apply writes_of_reads, reads_method_in. }
    apply keeps_if;
      [apply writes_storage_remove
      |apply writes_of_reads, reads_readOnlyWarning].
  - apply keeps_bind; [apply _| |intros can].
    { apply writes_of_reads, reads_method_in. }
    apply keeps_if;
      [apply writes_storage_set
      |apply writes_of_reads, reads_readOnlyWarning].
Qed.

Lemma writes_set_by_name f name v :
  ∀ w r w', set f (FlagName name v) w = (r, w') →
  touchesOnly
    (λ j, fst (resolveFlagStorage (getFlagDef (definitions f) name)
                 (storageMap f) w) = Ok (StorageObject j))
    (λ k, k = name) w w'.
Proof.
  intros w r w'. unfold set. destruct (negb (strictEq v VUndefined)).
  - apply setFlagValue_touchesOnly.
  - intros [= _ <-]. reflexivity.
Qed.

Lemma writes_set f arg :
  keeps (touchesOnly (λ _, True) (λ k, k ∈ namesOf arg)) (set f arg).
Proof.
  destruct arg as [name v|entries].
  - intros w r w' H. apply writes_set_by_name in H.
    eapply touchesOnly_mono; [| |exact H]; [done|].
    intros k ->. simpl. constructor.
  - simpl.
    assert (∀ es : list (string * JsVal),
      (∀ e, e ∈ es → e.1 ∈ entries.*1) →
      keeps (touchesOnly (λ _, True) (λ k, k ∈ entries.*1))
        (forEach es (λ e, setFlagValue (definitions f) e.1 e.2 (storageMap f))))
      as Hgen.
    { induction es as [|e es IH]; intros Hes; simpl; [apply keeps_ret, _|].
      apply keeps_bind; [apply _| |intros _].
      - intros w r w' H. apply setFlagValue_touchesOnly in H.
        eapply touchesOnly_mono; [| |exact H]; [done|].
        intros k ->. apply Hes. constructor.
      - apply IH. intros e' He'. apply Hes. by constructor. }
    apply Hgen. intros e He. apply list_elem_of_fmap. eauto.
Qed.

(** X2: multi-storage isolation. Whatever [set(flagName, value)] does
    (return or throw), it can change only the storage its definition
    resolves to, and in it only the entry of that flag: every other
    storage object is exactly as before, and every storage keeps its
    name, its capabilities and the values of all other keys. *)
Theorem set_by_name_touches_one_entry
  (f : Flagg) (flagName : string) (value : JsVal) (w w' : World)
  (r : Result unit) :
  set f (FlagName flagName value) w = (r, w') →
  length (heap w') = length (heap w)
  ∧ ∀ j s, heap w !! j = Some s →
      ∃ s', heap w' !! j = Some s'
        ∧ (fst (resolveFlagStorage (getFlagDef (definitions f) flagName)
                  (storageMap f) w) ≠ Ok (StorageObject j) → s' = s)
        ∧ Storage.name s' = Storage.name s
        ∧ Storage.has_set s' = Storage.has_set s
        ∧ Storage.has_remove s' = Storage.has_remove s
        ∧ ∀ k, k ≠ flagName → Storage.get s' k = Storage.get s k.
Proof.
  intros [Hlen Hst]%writes_set_by_name. split; [done|].
  intros j s Hj. destruct (Hst j s Hj) as (s' & Hj' & [N1 N2 N3 N4 N5] & Hn).
  exists s'. split_and!; try done.
  intros k Hk. unfold Storage.get. by rewrite N5.
Qed.

Lemma set_by_name_touches_one_entry_witness :
  length (heap overriddenWorld) = length (heap sampleWorld)
  ∧ ∀ j s, heap sampleWorld !! j = Some s →
      ∃ s', heap overriddenWorld !! j = Some s'
        ∧ (fst (resolveFlagStorage (getFlagDef (definitions sampleFlagg) "a")
                  (storageMap sampleFlagg) sampleWorld) ≠ Ok (StorageObject j) → s' = s)
        ∧ Storage.name s' = Storage.name s
        ∧ Storage.has_set s' = Storage.has_set s
        ∧ Storage.has_remove s' = Storage.has_remove s
        ∧ ∀ k, k ≠ "a" → Storage.get s' k = Storage.get s k.
Proof.
  apply (set_by_name_touches_one_entry sampleFlagg "a" (VBool true)
           sampleWorld overriddenWorld (Ok tt)).
  reflexivity.
Defined.

(** X3: whatever a call of [set] does, in either form, the storages it
    leaves differ from the ones it found at most in the entries of the
    flag names it was given: no storage object appears or disappears,
    none changes its name or capabilities, and no other key changes. *)
Theorem set_touches_only_named_flags
  (f : Flagg) (arg : SetArg) (w w' : World) (r : Result unit) :
  set f arg w = (r, w') →
  length (heap w') = length (heap w)
  ∧ ∀ j s, heap w !! j = Some s →
      ∃ s', heap w' !! j = Some s'
        ∧ Storage.name s' = Storage.name s
        ∧ Storage.has_set s' = Storage.has_set s
        ∧ Storage.has_remove s' = Storage.has_remove s
        ∧ ∀ k, k ∉ namesOf arg → Storage.get s' k = Storage.get s k.
Proof.
  intros [Hlen Hst]%writes_set. split; [done|].
  intros j s Hj. destruct (Hst j s Hj) as (s' & Hj' & [N1 N2 N3 N4 N5] & _).
  exists s'. split_and!; try done.
  intros k Hk. unfold Storage.get. by rewrite N5.
Qed.

Lemma set_touches_only_named_flags_witness :
  let w' := snd (set flakyFlagg (Flags [("a", VBool true); ("b", VBool true)])
                   flakyWorld) in
  length (heap w') = length (heap flakyWorld)
  ∧ ∀ j s, heap flakyWorld !! j = Some s →
      ∃ s', heap w' !! j = Some s'
        ∧ Storage.name s' = Storage.name s
        ∧ Storage.has_set s' = Storage.has_set s
        ∧ Storage.has_remove s' = Storage.has_remove s
        ∧ ∀ k, k ∉ namesOf (Flags [("a", VBool true); ("b", VBool true)]) →
               Storage.get s' k = Storage.get s k.
Proof.
  apply (set_touches_only_named_flags flakyFlagg
           (Flags [("a", VBool true); ("b", VBool true)]) flakyWorld _
           (Throw BackendError)).
  reflexivity.
Defined.

(** X4: a write to a storage without the needed capability is a no-op
    with a warning. For a defined flag whose resolved storage lacks
    [remove] (when the value equals the default) or lacks [set] (when it
    differs), [set(flagName, value)] returns normally, calls no storage
    method, changes no storage, and logs, after any warning of the
    storage resolution, the read-only warning with the name of that
    storage. *)
Theorem set_on_read_only_storage_warns
  (f : Flagg) (w : World) (flagName : string) (value dflt : JsVal)
  (i : nat) (s : Storage.t) :
  fst (getDefault f flagName w) = Ok dflt →
  fst (resolveFlagStorage (getFlagDef (definitions f) flagName)
         (storageMap f) w) = Ok (StorageObject i) →
  heap w !! i = Some s →
  value ≠ VUndefined →
  (if sameJSON value dflt then Storage.has_remove s else Storage.has_set s)
  = false →
  ∃ w', set f (FlagName flagName value) w = (Ok tt, w')
    ∧ sameButConsole w w'
    ∧ ∃ resolving,
        console w'
        = (console w ++ resolving ++ [ReadOnlyStorage (Storage.name s)])%list
        ∧ console (snd (resolveFlagStorage
                          (getFlagDef (definitions f) flagName)
                          (storageMap f) w))
          = (console w ++ resolving)%list.
Proof.
  intros Hdf Hres Hh Hv Hcap.
  apply getDefault_fst in Hdf as (d & Hd & ->).
  rewrite Hd in Hres |- *. apply resolveFlagStorage_fst in Hres.
  destruct (resolveFlagStorage_some d (storageMap f) w)
    as (w1 & Hr & Hs & Hc).
  assert (heap w1 !! i = Some s) as Hh1 by (by rewrite (sbc_heap _ _ Hs)).
  eexists. split; [|split; [|exists (resolveWarnings (heap w) d (storageMap f))]].
  - unfold set, strictEq. rewrite bool_decide_eq_false_2 by done. simpl.
    unfold setFlagValue. rewrite Hd. unfold bind at 1. rewrite Hr, Hres.
    unfold bind at 1. rewrite getFlagDefaultValue_some.
    destruct (sameJSON value (defaultOf d)); unfold bind at 1.
    + rewrite (remove_in_some i s), Hcap by done.
      unfold bind. by rewrite (storage_name_some i s).
    + rewrite (set_in_some i s), Hcap by done.
      unfold bind. by rewrite (storage_name_some i s).
  - destruct Hs. by split.
  - rewrite Hr. simpl. by rewrite Hc, <- (assoc_L (++)).
Qed.

Lemma set_on_read_only_storage_warns_witness :
  let f := fst (flagg (FlaggOpts.mk (One readOnlyR)
                         (Some {[ "a" := boolFlag ]}) Absent)) in
  let w := snd (flagg (FlaggOpts.mk (One readOnlyR)
                         (Some {[ "a" := boolFlag ]}) Absent)) in
  ∃ w', set f (FlagName "a" (VBool true)) w = (Ok tt, w')
    ∧ sameButConsole w w'
    ∧ ∃ resolving,
        console w'
        = (console w ++ resolving ++ [ReadOnlyStorage (Storage.name readOnlyR)])%list
        ∧ console (snd (resolveFlagStorage (getFlagDef (definitions f) "a")
                          (storageMap f) w))
          = (console w ++ resolving)%list.
Proof.
  apply (set_on_read_only_storage_warns _ _ "a" (VBool true) (VBool false)
           0 readOnlyR);
    [reflexivity|reflexivity|reflexivity|discriminate|reflexivity].
Defined.

(* ===================================================================== *)
(** ** Overrides and what is stored *)
(* ===================================================================== *)

Lemma isOverridden_nothing_stored f name d i s w :
  getFlagDef (definitions f) name = Some d →
  resolvedStorage (heap w) d (storageMap f) = StorageObject i →
  heap w !! i = Some s →
  isNullish (Storage.get s name) = true →
  fst (isOverridden f name w) = Ok false.
Proof.
  intros Hd Hres Hh Hnull.
  destruct (isOverridden_defined f _ _ _ _ w Hd Hres Hh) as (w2 & Hov & _).
  rewrite Hnull in Hov. rewrite Hov. simpl. unfold strictEq.
  rewrite (bool_decide_eq_true_2 (defaultOf d = defaultOf d)) by done.
  destruct (truthy (defaultOf d)); by case_bool_decide.
Qed.

(** If [isOverridden] says yes, the storage holds a value and [get]
    returns it. *)
Lemma isOverridden_true_stored f name d i s w :
  getFlagDef (definitions f) name = Some d →
  resolvedStorage (heap w) d (storageMap f) = StorageObject i →
  heap w !! i = Some s →
  fst (isOverridden f name w) = Ok true →
  isNullish (Storage.get s name) = false
  ∧ fst (get f name w) = Ok (Storage.get s name).
Proof.
  intros Hd Hres Hh Hov.
  destruct (isNullish (Storage.get s name)) eqn:Hnull.
  { rewrite (isOverridden_nothing_stored f name d i s w) in Hov by done.
    discriminate. }
  destruct (getResolvedFlagValue_defined _ _ _ _ _ _ w Hd Hres Hh)
    as (w1 & Hget & _).
  rewrite Hnull in Hget. split; [done|]. unfold get. by rewrite Hget.
Qed.

(** X5: a flag without a stored override resolves to its default. For a
    defined flag whose storage holds nothing (or [null]) for it,
    [get(flag)] equals [getDefault(flag)], [isOn(flag)] is the boolean
    coercion of the default, and [isOverridden(flag)] is [false]. *)
Theorem no_stored_value_means_default
  (f : Flagg) (w : World) (flagName : string) (d : FlagDefinition.t)
  (i : nat) (s : Storage.t) :
  getFlagDef (definitions f) flagName = Some d →
  fst (resolveFlagStorage (Some d) (storageMap f) w) = Ok (StorageObject i) →
  heap w !! i = Some s →
  isNullish (Storage.get s flagName) = true →
  fst (get f flagName w) = fst (getDefault f flagName w)
  ∧ fst (get f flagName w) = Ok (defaultOf d)
  ∧ fst (isOn f flagName w) = Ok (truthy (defaultOf d))
  ∧ fst (isOverridden f flagName w) = Ok false.
Proof.
  intros Hd Hres Hh Hnull. apply resolveFlagStorage_fst in Hres.
  destruct (getResolvedFlagValue_defined _ _ _ _ _ _ w Hd Hres Hh)
    as (w1 & Hget & _).
  rewrite Hnull in Hget.
  split_and!.
  - unfold get, getDefault. by rewrite Hget, Hd.
  - unfold get. by rewrite Hget.
  - unfold isOn, get, bind. by rewrite Hget.
  - by eapply isOverridden_nothing_stored.
Qed.

Lemma no_stored_value_means_default_witness :
  fst (get sampleFlagg "a" sampleWorld)
  = fst (getDefault sampleFlagg "a" sampleWorld)
  ∧ fst (get sampleFlagg "a" sampleWorld) = Ok (defaultOf boolFlag)
  ∧ fst (isOn sampleFlagg "a" sampleWorld) = Ok (truthy (defaultOf boolFlag))
  ∧ fst (isOverridden sampleFlagg "a" sampleWorld) = Ok false.
Proof.
  apply (no_stored_value_means_default sampleFlagg sampleWorld "a" boolFlag
           0 memA);
    reflexivity.
Defined.

(** X6: an overridden flag has a stored value. If [isOverridden(flag)]
    returns [true] for a defined flag, its storage holds for it a value
    that is neither [null] nor [undefined], [get(flag)] returns that
    stored value, and it is not the default. *)
Theorem overridden_means_stored
  (f : Flagg) (w : World) (flagName : string) (d : FlagDefinition.t)
  (i : nat) (s : Storage.t) :
  getFlagDef (definitions f) flagName = Some d →
  fst (resolveFlagStorage (Some d) (storageMap f) w) = Ok (StorageObject i) →
  heap w !! i = Some s →
  fst (isOverridden f flagName w) = Ok true →
  isNullish (Storage.get s flagName) = false
  ∧ fst (get f flagName w) = Ok (Storage.get s flagName)
  ∧ Storage.get s flagName ≠ defaultOf d.
Proof.
  intros Hd Hres Hh Hov.
  apply resolveFlagStorage_fst in Hres.
  destruct (isOverridden_true_stored f flagName d i s w Hd Hres Hh Hov)
    as [Hnull Hget].
  destruct (isOverridden_defined f _ _ _ _ w Hd Hres Hh) as (w2 & Hov' & _).
  rewrite Hnull in Hov'. rewrite Hov' in Hov. simpl in Hov.
  split_and!; [done|done|].
  intros Heq. rewrite Heq in Hov. unfold strictEq in Hov.
  rewrite (bool_decide_eq_true_2 (defaultOf d = defaultOf d)) in Hov by done.
  destruct (truthy (defaultOf d)); by case_bool_decide.
Qed.

Lemma overridden_means_stored_witness :
  isNullish (Storage.get (Storage.stored memA "a" (VBool true)) "a") = false
  ∧ fst (get sampleFlagg "a" overriddenWorld)
    = Ok (Storage.get (Storage.stored memA "a" (VBool true)) "a")
  ∧ Storage.get (Storage.stored memA "a" (VBool true)) "a"
    ≠ defaultOf boolFlag.
Proof.
  apply (overridden_means_stored sampleFlagg overriddenWorld "a" boolFlag 0
           (Storage.stored memA "a" (VBool true)));
    reflexivity.
Defined.

(** X7: overriding and resetting is a round trip. For a defined flag on
    a storage with [set] and [remove] (that do not throw),
    [set(flag, v)] with [v] different from the default followed by
    [set(flag, v')] with [v'] equal to the default leaves the storages as
    a single reset would; when the storage held no entry for the flag at
    the start, the storages are exactly as at the start. *)
Theorem set_then_reset_round_trip
  (f : Flagg) (w : World) (flagName : string) (v v' dflt : JsVal)
  (i : nat) (s : Storage.t) :
  fst (getDefault f flagName w) = Ok dflt →
  fst (resolveFlagStorage (getFlagDef (definitions f) flagName)
         (storageMap f) w) = Ok (StorageObject i) →
  heap w !! i = Some s →
  Storage.has_set s = true →
  Storage.has_remove s = true →
  Storage.faulty s flagName = false →
  v ≠ VUndefined →
  sameJSON v dflt = false →
  sameJSON v' dflt = true →
  ∃ w1 w2,
    set f (FlagName flagName v) w = (Ok tt, w1)
    ∧ set f (FlagName flagName v') w1 = (Ok tt, w2)
    ∧ heap w2 = heap (snd (set f (FlagName flagName v') w))
    ∧ (Storage.contents s !! flagName = None → heap w2 = heap w).
Proof.
  intros Hdf Hres Hh Hset Hrem Hok Hv Hj Hj'.
  apply getDefault_fst in Hdf as (d & Hd & ->).
  rewrite Hd in Hres. apply resolveFlagStorage_fst in Hres.
  assert (v' ≠ VUndefined) as Hv' by (by eapply sameJSON_default_defined).
  destruct (setFlagValue_set _ _ _ _ _ _ v w Hd Hres Hh Hj Hset Hok)
    as (w1 & Hs1 & Hheap1 & _).
  assert (heap w1 !! i = Some (Storage.stored s flagName v)) as Hh1.
  { rewrite Hheap1. apply list_lookup_insert_eq. by eapply lookup_lt_Some. }
  assert (resolvedStorage (heap w1) d (storageMap f) = StorageObject i)
    as Hres1 by (by rewrite Hheap1, (resolvedStorage_stored _ i s)).
  destruct (setFlagValue_remove _ _ _ _ _ _ v' w1 Hd Hres1 Hh1 Hj' Hrem Hok)
    as (w2 & Hs2 & Hheap2 & _).
  destruct (setFlagValue_remove _ _ _ _ _ _ v' w Hd Hres Hh Hj' Hrem Hok)
    as (w3 & Hs3 & Hheap3 & _).
  assert (Storage.removed (Storage.stored s flagName v) flagName
          = Storage.removed s flagName) as Hrs.
  { unfold Storage.removed, Storage.stored. simpl.
    by rewrite delete_insert_eq. }
  assert (heap w2 = <[i := Storage.removed s flagName]> (heap w)) as Hfinal.
  { by rewrite Hheap2, Hheap1, list_insert_insert_eq, Hrs. }
  exists w1, w2. unfold set, strictEq.
  rewrite !bool_decide_eq_false_2 by done. simpl.
  split_and!; [done|done| |].
  - rewrite Hs3. simpl. by rewrite Hfinal, Hheap3.
  - intros Hnone. rewrite Hfinal. apply list_insert_id. rewrite Hh.
    f_equal. destruct s. unfold Storage.removed. simpl in *.
    by rewrite delete_id.
Qed.

Lemma set_then_reset_round_trip_witness :
  ∃ w1 w2,
    set sampleFlagg (FlagName "a" (VBool true)) sampleWorld = (Ok tt, w1)
    ∧ set sampleFlagg (FlagName "a" (VBool false)) w1 = (Ok tt, w2)
    ∧ heap w2
      = heap (snd (set sampleFlagg (FlagName "a" (VBool false)) sampleWorld))
    ∧ (Storage.contents memA !! "a" = None → heap w2 = heap sampleWorld).
Proof.
  apply (set_then_reset_round_trip sampleFlagg sampleWorld "a" (VBool true)
           (VBool false) (VBool false) 0 memA);
    try reflexivity; discriminate.
Defined.

(* ===================================================================== *)
(** ** The storage map in general *)
(* ===================================================================== *)

(** Every reference bound by the reduction comes from the initial map
    or is the index of a storage with that name. *)
Lemma storageMapFrom_bound init l k r :
  storageMapFrom init l !! k = Some (Some r) →
  (∃ s, l !! r = Some s ∧ Storage.name s = k) ∨ init !! k = Some (Some r).
Proof.
  revert r. induction l as [|x l IH] using rev_ind; intros r; [by right|].
  rewrite storageMapFrom_snoc.
  destruct (decide (Storage.name x = k)) as [<-|Hne].
  - rewrite lookup_insert_eq. intros [= <-]. left. exists x.
    by rewrite list_lookup_middle.
  - rewrite lookup_insert_ne by done. intros H.
    destruct (IH r H) as [(s & Hs & Hn)|Hi]; [left|by right].
    exists s. split; [|done]. by apply lookup_app_l_Some.
Qed.

(** A key bound to a storage stays bound to a storage. *)
Lemma storageMapFrom_stays_bound init l k r0 :
  init !! k = Some (Some r0) →
  ∃ r, storageMapFrom init l !! k = Some (Some r).
Proof.
  intros Hi. induction l as [|x l IH] using rev_ind; [by exists r0|].
  rewrite storageMapFrom_snoc.
  destruct (decide (Storage.name x = k)) as [<-|Hne].
  - rewrite lookup_insert_eq. eauto.
  - by rewrite lookup_insert_ne.
Qed.

(** The last storage with a given name is the one bound to it. *)
Lemma storageMapFrom_last init l j s :
  l !! j = Some s →
  (∀ j' s', j < j' → l !! j' = Some s' → Storage.name s' ≠ Storage.name s) →
  storageMapFrom init l !! Storage.name s = Some (Some j).
Proof.
  revert j s. induction l as [|x l IH] using rev_ind; intros j s Hj Hlast;
    [done|].
  rewrite storageMapFrom_snoc.
  destruct (decide (j < length l)) as [Hlt|Hge].
  - rewrite lookup_app_l in Hj by done.
    rewrite lookup_insert_ne.
    + apply IH; [done|]. intros j' s' Hlt' Hj'. apply (Hlast j' s' Hlt').
      by apply lookup_app_l_Some.
    + apply (Hlast (length l) x Hlt). by rewrite list_lookup_middle.
  - assert (j = length l) as ->.
    { apply lookup_lt_Some in Hj. rewrite length_app in Hj. simpl in Hj. lia. }
    rewrite list_lookup_middle in Hj by done. injection Hj as <-.
    apply lookup_insert_eq.
Qed.

(** A lookup gives a storage object only for an own property: what the
    prototype chain supplies is a function, an object that is no storage
    or a string. *)
Lemma storageMember_no_storage s key r : storageMember s key ≠ StorageObject r.
Proof.
  unfold storageMember, objectPrototypeMember.
  repeat match goal with |- context [if ?b then _ else _] => destruct b end;
    done.
Qed.

Lemma objectPrototypeMember_no_storage key r :
  objectPrototypeMember key ≠ StorageObject r.
Proof. unfold objectPrototypeMember. by destruct (inheritedFromObject key). Qed.

Lemma lookupStorage_object (h : list Storage.t) sm key r :
  lookupStorage h sm key = StorageObject r → sm !! key = Some (Some r).
Proof.
  unfold lookupStorage.
  destruct (sm !! key) as [[i|]|]; [by intros [= ->]|done|].
  destruct (sm !! "__proto__") as [[p|]|];
    [destruct (h !! p)|..]; intros H;
    by first [apply storageMember_no_storage in H
             |apply objectPrototypeMember_no_storage in H].
Qed.

(** X8: in the storage map, a name shared by several storages denotes
    the last of them: a storage is reachable under its name exactly when
    no later storage of the array has the same name (this holds for the
    name ["_default"] too, which then no longer denotes the first
    storage). *)
Theorem makeStorageMap_last_name_wins
  (_storage : OneOrMany Storage.t) (j : nat) (s : Storage.t) :
  makeArray _storage !! j = Some s →
  (∀ j' s', j < j' → makeArray _storage !! j' = Some s' →
            Storage.name s' ≠ Storage.name s) →
  ∀ h, lookupStorage h (makeStorageMap _storage) (Storage.name s)
       = StorageObject j.
Proof.
  intros Hj Hlast h. apply lookupStorage_own.
  rewrite makeStorageMap_from.
  by rewrite (storageMapFrom_last _ _ j s Hj Hlast).
Qed.

Lemma makeStorageMap_last_name_wins_witness :
  lookupStorage [memA; memB; flakyA]
    (makeStorageMap (Many [memA; memB; flakyA])) (Storage.name flakyA)
  = StorageObject 2.
Proof.
  apply (makeStorageMap_last_name_wins (Many [memA; memB; flakyA]) 2 flakyA).
  - reflexivity.
  - intros j' s' Hlt Hj'. apply lookup_lt_Some in Hj'. simpl in Hj'. lia.
Defined.

(** A key that is neither the default key nor the name of a storage,
    when no storage is named ["__proto__"], is looked up in
    [Object.prototype]. *)
Lemma makeStorageMap_inherited (_storage : OneOrMany Storage.t)
  (h : list Storage.t) (k : string) :
  k ∉ Storage.name <$> makeArray _storage →
  k ≠ DEFAULT_STORAGE_NAME →
  "__proto__" ∉ Storage.name <$> makeArray _storage →
  lookupStorage h (makeStorageMap _storage) k = objectPrototypeMember k.
Proof.
  intros Hk Hne Hproto. unfold lookupStorage.
  rewrite makeStorageMap_from, !storageMapFrom_other by done.
  rewrite lookup_singleton_ne by done.
  by rewrite lookup_singleton_ne.
Qed.

(** X9: what the keys of the storage map denote. The map holds no
    dangling reference: whenever looking a key up gives a storage
    object, that object is an element of the supplied array, and that
    element is named by the key, unless the key is ["_default"] bound to
    the first element. But a lookup can give something that is no
    storage: a key that is neither ["_default"] nor the name of a
    supplied storage denotes (no storage being named ["__proto__"]) what
    [Object.prototype] has under that key, a function for [toString] or
    [constructor], and only otherwise [undefined]. *)
Theorem makeStorageMap_references_valid
  (_storage : OneOrMany Storage.t) (h : list Storage.t) (k : string) :
  (∀ r, lookupStorage h (makeStorageMap _storage) k = StorageObject r →
        ∃ s, makeArray _storage !! r = Some s
             ∧ (Storage.name s = k ∨ (k = DEFAULT_STORAGE_NAME ∧ r = 0)))
  ∧ (k ∉ Storage.name <$> makeArray _storage →
     k ≠ DEFAULT_STORAGE_NAME →
     "__proto__" ∉ Storage.name <$> makeArray _storage →
     lookupStorage h (makeStorageMap _storage) k = objectPrototypeMember k
     ∧ (inheritedFromObject k = true →
        truthyValue (lookupStorage h (makeStorageMap _storage) k) = true
        ∧ ∀ r, lookupStorage h (makeStorageMap _storage) k
               ≠ StorageObject r)).
Proof.
  split.
  - intros r Hk. apply lookupStorage_object in Hk.
    rewrite makeStorageMap_from in Hk.
    apply storageMapFrom_bound in Hk as [(s & Hs & Hn)|Hi].
    + exists s. auto.
    + destruct (decide (k = DEFAULT_STORAGE_NAME)) as [->|Hne].
      * rewrite lookup_singleton_eq in Hi.
        destruct (makeArray _storage) as [|s l]; [done|].
        simpl in Hi. injection Hi as <-. exists s. auto.
      * by rewrite lookup_singleton_ne in Hi.
  - intros Hk Hne Hproto.
    rewrite (makeStorageMap_inherited _ h k Hk Hne Hproto).
    split; [done|]. unfold objectPrototypeMember. by intros ->.
Qed.

Lemma makeStorageMap_references_valid_witness :
  (∃ s, makeArray (Many [memA; readOnlyR]) !! 0 = Some s
        ∧ (Storage.name s = "_default"
           ∨ ("_default" = DEFAULT_STORAGE_NAME ∧ 0 = 0)))
  ∧ lookupStorage [memA; readOnlyR] (makeStorageMap (Many [memA; readOnlyR]))
      "toString" = OtherObject "toString".
Proof.
  split.
  - apply (proj1 (makeStorageMap_references_valid (Many [memA; readOnlyR])
                    [memA; readOnlyR] "_default") 0).
    reflexivity.
  - apply (proj2 (makeStorageMap_references_valid (Many [memA; readOnlyR])
                    [memA; readOnlyR] "toString")).
    + simpl. rewrite !not_elem_of_cons.
      split_and!; [discriminate..|apply not_elem_of_nil].
    + discriminate.
    + simpl. rewrite !not_elem_of_cons.
      split_and!; [discriminate..|apply not_elem_of_nil].
Defined.

(** Every reference of the map is an index of the array. *)
Lemma makeStorageMap_in_range (_storage : OneOrMany Storage.t)
  (h : list Storage.t) k r :
  lookupStorage h (makeStorageMap _storage) k = StorageObject r →
  r < length (makeArray _storage).
Proof.
  intros Hk. apply lookupStorage_object in Hk.
  rewrite makeStorageMap_from in Hk.
  apply storageMapFrom_bound in Hk as [(s & Hs & _)|Hi].
  - by eapply lookup_lt_Some.
  - destruct (decide (k = DEFAULT_STORAGE_NAME)) as [->|Hne].
    + rewrite lookup_singleton_eq in Hi.
      destruct (makeArray _storage) as [|s l]; [done|].
      simpl in Hi. injection Hi as <-. simpl. lia.
    + by rewrite lookup_singleton_ne in Hi.
Qed.

(** With at least one storage, the default entry denotes a storage of
    the array. *)
Lemma makeStorageMap_default_bound (_storage : OneOrMany Storage.t)
  (h : list Storage.t) :
  makeArray _storage ≠ [] →
  ∃ r, lookupStorage h (makeStorageMap _storage) DEFAULT_STORAGE_NAME
       = StorageObject r.
Proof.
  intros Hne. rewrite makeStorageMap_from.
  destruct (storageMapFrom_stays_bound
              {[ DEFAULT_STORAGE_NAME := (λ _, 0) <$> head (makeArray _storage) ]}
              (makeArray _storage) DEFAULT_STORAGE_NAME 0) as [r Hr].
  - rewrite lookup_singleton_eq. by destruct (makeArray _storage).
  - exists r. by apply lookupStorage_own.
Qed.

(** Without a storage, a key denotes what [Object.prototype] has under
    it, and the default entry is [undefined]. *)
Lemma makeStorageMap_empty (_storage : OneOrMany Storage.t)
  (h : list Storage.t) k :
  makeArray _storage = [] →
  lookupStorage h (makeStorageMap _storage) k = objectPrototypeMember k.
Proof.
  intros He. unfold lookupStorage. rewrite makeStorageMap_from, He.
  unfold storageMapFrom. simpl.
  destruct (decide (k = DEFAULT_STORAGE_NAME)) as [->|Hne].
  - by rewrite lookup_singleton_eq.
  - rewrite lookup_singleton_ne by done.
    by rewrite lookup_singleton_ne.
Qed.

(* ===================================================================== *)
(** ** When reads return and when they throw *)
(* ===================================================================== *)

(** With a storage supplied and the heap holding the storages of the
    construction, a definition whose storage key denotes nothing foreign
    resolves to a storage object of the heap. *)
Lemma flagg_resolves (opts : FlaggOpts.t) (w : World) (d : FlagDefinition.t) :
  makeArray (FlaggOpts.storage opts) ≠ [] →
  length (heap w) = length (makeArray (FlaggOpts.storage opts)) →
  foreignValue
    (lookupStorage (heap w) (storageMap (fst (flagg opts)))
       (propertyKey (FlagDefinition.storage d))) = false →
  ∃ i s, resolvedStorage (heap w) d (storageMap (fst (flagg opts)))
         = StorageObject i
         ∧ heap w !! i = Some s.
Proof.
  intros Hne Hlen Hf. simpl in *. unfold resolvedStorage.
  assert (∀ k r, lookupStorage (heap w)
                   (makeStorageMap (FlaggOpts.storage opts)) k
                 = StorageObject r → ∃ s, heap w !! r = Some s) as Hlive.
  { intros k r Hk. apply makeStorageMap_in_range in Hk.
    apply lookup_lt_is_Some. by rewrite Hlen. }
  destruct (makeStorageMap_default_bound (FlaggOpts.storage opts) (heap w) Hne)
    as [r0 Hr0].
  destruct (Hlive _ _ Hr0) as [s0 Hs0].
  destruct (lookupStorage _ _ (propertyKey _)) as [|r|n|x] eqn:Hk; simpl in *.
  - eauto.
  - destruct (Hlive _ _ Hk) as [s Hs]. eauto.
  - done.
  - rewrite Hf. eauto.
Qed.

(** A foreign value found under the storage key is what the definition
    resolves to. *)
Lemma resolvedStorage_foreign (h : list Storage.t) d sm :
  foreignValue (lookupStorage h sm (propertyKey (FlagDefinition.storage d)))
  = true →
  resolvedStorage h d sm
  = lookupStorage h sm (propertyKey (FlagDefinition.storage d))
  ∧ ∀ i, resolvedStorage h d sm ≠ StorageObject i.
Proof.
  unfold resolvedStorage.
  destruct (lookupStorage h sm (propertyKey _)) as [|r|n|x]; simpl; try done.
  intros ->. done.
Qed.

(** Reading through a value that is no storage object throws. *)
Lemma get_no_storage_object f name d w :
  getFlagDef (definitions f) name = Some d →
  (∀ i, resolvedStorage (heap w) d (storageMap f) ≠ StorageObject i) →
  fst (get f name w) = Throw TypeError.
Proof.
  intros Hd Hno.
  destruct (resolveFlagStorage_some d (storageMap f) w)
    as (w1 & Hr & Hs & _).
  unfold get, getResolvedFlagValue. rewrite Hd.
  unfold bind at 1. rewrite getFlagDefaultValue_some.
  unfold bind at 1. unfold getFlagValue, bind at 1. rewrite Hr.
  destruct (resolvedStorage (heap w) d (storageMap f)) as [|i|n|x];
    try done.
  by destruct (Hno i).
Qed.

Lemma isOn_throws f name w e :
  fst (get f name w) = Throw e → fst (isOn f name w) = Throw e.
Proof.
  intros Hget. unfold isOn, bind.
  destruct (get f name w) as [[v|e'] w2]; simpl in Hget |- *;
    [discriminate|by injection Hget as ->].
Qed.

(** X10: with at least one storage supplied, a read throws only where
    the storage key of the flag's definition (its [storage] field, or
    ["undefined"]) finds in the storage map a truthy value that is no
    storage: a member inherited from [Object.prototype], such as
    [toString], or a member of a storage named ["__proto__"]. In any
    world that has the storages of the construction (their number is
    what matters, and no [set] changes it), if the key finds no such
    value then [get] and [isOn] return for the flag name, whether it has
    a definition or not, and [isOverridden] returns if it has one; if
    the key finds such a value, [get] and [isOn] throw a [TypeError]. *)
Theorem reads_return_with_a_storage
  (opts : FlaggOpts.t) (w : World) (flagName : string) :
  makeArray (FlaggOpts.storage opts) ≠ [] →
  length (heap w) = length (makeArray (FlaggOpts.storage opts)) →
  ((∀ d, getFlagDef (definitions (fst (flagg opts))) flagName = Some d →
         foreignValue
           (lookupStorage (heap w) (storageMap (fst (flagg opts)))
              (propertyKey (FlagDefinition.storage d))) = false) →
   ∃ v, fst (get (fst (flagg opts)) flagName w) = Ok v
     ∧ fst (isOn (fst (flagg opts)) flagName w) = Ok (truthy v)
     ∧ (is_Some (getFlagDef (definitions (fst (flagg opts))) flagName) →
        ∃ b, fst (isOverridden (fst (flagg opts)) flagName w) = Ok b))
  ∧ (∀ d, getFlagDef (definitions (fst (flagg opts))) flagName = Some d →
          foreignValue
            (lookupStorage (heap w) (storageMap (fst (flagg opts)))
               (propertyKey (FlagDefinition.storage d))) = true →
          fst (get (fst (flagg opts)) flagName w) = Throw TypeError
          ∧ fst (isOn (fst (flagg opts)) flagName w) = Throw TypeError).
Proof.
  intros Hne Hlen. set (f := fst (flagg opts)). split.
  - intros Hgood.
    destruct (getFlagDef (definitions f) flagName) as [d|] eqn:Hd.
    + destruct (flagg_resolves opts w d Hne Hlen (Hgood d eq_refl))
        as (i & s & Hres & Hh).
      fold f in Hres.
      destruct (getResolvedFlagValue_defined _ _ _ _ _ _ w Hd Hres Hh)
        as (w1 & Hget & _).
      destruct (isOverridden_defined f _ _ _ _ w Hd Hres Hh)
        as (w2 & Hov & _).
      eexists. split_and!.
      * unfold get. by rewrite Hget.
      * unfold isOn, get, bind. by rewrite Hget.
      * intros _. eexists. by rewrite Hov.
    + exists VNull. split_and!.
      * by rewrite get_unknown.
      * unfold isOn, bind. by rewrite get_unknown.
      * by intros [? ?].
  - intros d Hd Hbad.
    destruct (resolvedStorage_foreign _ _ _ Hbad) as [_ Hno].
    pose proof (get_no_storage_object f flagName d w Hd Hno) as Hget.
    split; [done|]. by apply isOn_throws.
Qed.

Lemma reads_return_with_a_storage_witness :
  (∃ v, fst (get (fst (flagg hydratedOpts)) "a" overriddenWorld) = Ok v
     ∧ fst (isOn (fst (flagg hydratedOpts)) "a" overriddenWorld)
       = Ok (truthy v)
     ∧ (is_Some (getFlagDef (definitions (fst (flagg hydratedOpts))) "a") →
        ∃ b, fst (isOverridden (fst (flagg hydratedOpts)) "a" overriddenWorld)
             = Ok b))
  ∧ (let opts := optsA {[ "a" := FlagDefinition.mk (VBool false) None
                                    (Some "toString") ]} in
     fst (get (fst (flagg opts)) "a" sampleWorld) = Throw TypeError
     ∧ fst (isOn (fst (flagg opts)) "a" sampleWorld) = Throw TypeError).
Proof.
  split.
  - destruct (reads_return_with_a_storage hydratedOpts overriddenWorld "a")
      as [Hgood _]; [discriminate|reflexivity|].
    apply Hgood. intros d [= <-]. reflexivity.
  - destruct (reads_return_with_a_storage
                (optsA {[ "a" := FlagDefinition.mk (VBool false) None
                                  (Some "toString") ]})
                sampleWorld "a") as [_ Hbad]; [discriminate|reflexivity|].
    apply (Hbad (FlagDefinition.mk (VBool false) None (Some "toString")));
      reflexivity.
Defined.

(** Writing through an object that is no storage: neither [set] nor
    [remove] is found in it, so the write only warns, under the name
    the object prints. *)
Lemma setFlagValue_other_object defs sm name d n v w :
  getFlagDef defs name = Some d →
  resolvedStorage (heap w) d sm = OtherObject n →
  ∃ w', setFlagValue defs name v sm w = (Ok tt, w')
        ∧ heap w' = heap w ∧ calls w' = calls w
        ∧ console w' = (console w ++ resolveWarnings (heap w) d sm
                        ++ [ReadOnlyStorage n])%list.
Proof.
  intros Hd Hr.
  destruct (resolveFlagStorage_some d sm w) as (w1 & Hres & Hs & Hc).
  rewrite Hr in Hres.
  eexists. split.
  - unfold setFlagValue. rewrite Hd. unfold bind at 1. rewrite Hres.
    unfold bind at 1. rewrite getFlagDefaultValue_some.
    by destruct (sameJSON _ _).
  - simpl. split; [apply Hs|]. split; [apply Hs|].
    by rewrite Hc, <- app_assoc.
Qed.

(** Writing through [undefined]: testing for a method throws. *)
Lemma setFlagValue_no_value defs sm name d v w :
  getFlagDef defs name = Some d →
  resolvedStorage (heap w) d sm = NoValue →
  ∃ w', setFlagValue defs name v sm w = (Throw TypeError, w')
        ∧ sameButConsole w w'.
Proof.
  intros Hd Hr.
  destruct (resolveFlagStorage_some d sm w) as (w1 & Hres & Hs & Hc).
  rewrite Hr in Hres.
  exists w1. split; [|done].
  unfold setFlagValue. rewrite Hd. unfold bind at 1. rewrite Hres.
  unfold bind at 1. rewrite getFlagDefaultValue_some.
  by destruct (sameJSON _ _).
Qed.

(** X11: without any storage supplied, no flag that has a definition
    can be read: [get] and [isOn] throw a [TypeError]. A [set] with a
    value other than [undefined] throws a [TypeError] too, unless the
    storage key of the definition (its [storage] field, or
    ["undefined"]) is the name of a member of [Object.prototype]: then
    that member is taken for the storage, and [set] returns after
    warning of a write to a read-only storage of the member's name. In
    both cases the world's storages are as they were and no storage
    method is called; [getDefault], which needs no storage, still
    returns the default. *)
Theorem no_storage_defined_flag_throws
  (opts : FlaggOpts.t) (w : World) (flagName : string)
  (d : FlagDefinition.t) (value : JsVal) :
  makeArray (FlaggOpts.storage opts) = [] →
  getFlagDef (definitions (fst (flagg opts))) flagName = Some d →
  value ≠ VUndefined →
  fst (get (fst (flagg opts)) flagName w) = Throw TypeError
  ∧ fst (isOn (fst (flagg opts)) flagName w) = Throw TypeError
  ∧ fst (set (fst (flagg opts)) (FlagName flagName value) w)
    = (if inheritedFromObject (propertyKey (FlagDefinition.storage d))
       then Ok tt else Throw TypeError)
  ∧ (∀ n, objectPrototypeMember (propertyKey (FlagDefinition.storage d))
          = OtherObject n →
          console (snd (set (fst (flagg opts)) (FlagName flagName value) w))
          = (console w ++ [ReadOnlyStorage n])%list)
  ∧ heap (snd (set (fst (flagg opts)) (FlagName flagName value) w)) = heap w
  ∧ calls (snd (set (fst (flagg opts)) (FlagName flagName value) w))
    = calls w
  ∧ fst (getDefault (fst (flagg opts)) flagName w) = Ok (defaultOf d).
Proof.
  intros He Hd Hv. set (f := fst (flagg opts)) in *.
  set (key := propertyKey (FlagDefinition.storage d)).
  assert (resolvedStorage (heap w) d (storageMap f)
          = objectPrototypeMember key) as Hres.
  { unfold resolvedStorage. simpl. rewrite !makeStorageMap_empty by done.
    fold key. unfold objectPrototypeMember.
    by destruct (inheritedFromObject key). }
  assert (resolveWarnings (heap w) d (storageMap f) = []
          ∨ inheritedFromObject key = false) as Hwarn.
  { unfold resolveWarnings, key. simpl.
    destruct (FlagDefinition.storage d) as [n|]; [|by left]. simpl.
    rewrite makeStorageMap_empty by done. unfold objectPrototypeMember.
    destruct (inheritedFromObject n); [by left|by right]. }
  assert (set f (FlagName flagName value) w
          = setFlagValue (definitions f) flagName value (storageMap f) w)
    as Hset.
  { unfold set, strictEq. by rewrite bool_decide_eq_false_2. }
  assert (fst (get f flagName w) = Throw TypeError) as Hget.
  { apply (get_no_storage_object f flagName d w Hd). intros i.
    rewrite Hres. apply objectPrototypeMember_no_storage. }
  split; [done|]. split; [by apply isOn_throws|].
  rewrite Hset.
  assert (fst (getDefault f flagName w) = Ok (defaultOf d)) as Hdef.
  { unfold getDefault. by rewrite Hd. }
  unfold objectPrototypeMember in *.
  destruct (inheritedFromObject key) eqn:Hin.
  - destruct (setFlagValue_other_object _ _ _ _ _ value w Hd Hres)
      as (w' & -> & Hh & Hcalls & Hc).
    simpl. split_and!; try done.
    intros n [= <-]. rewrite Hc.
    by destruct Hwarn as [->|?].
  - destruct (setFlagValue_no_value _ _ _ _ value w Hd Hres)
      as (w' & -> & Hs).
    simpl. split_and!; try done; apply Hs.
Qed.

Lemma no_storage_defined_flag_throws_witness :
  let opts := FlaggOpts.mk Absent (Some {[ "a" := boolFlag ]}) Absent in
  let d := FlagDefinition.mk (VBool false) None (Some "toString") in
  let opts' := FlaggOpts.mk Absent (Some {[ "a" := d ]}) Absent in
  (fst (get (fst (flagg opts)) "a" sampleWorld) = Throw TypeError
   ∧ fst (isOn (fst (flagg opts)) "a" sampleWorld) = Throw TypeError
   ∧ fst (set (fst (flagg opts)) (FlagName "a" (VBool true)) sampleWorld)
     = Throw TypeError
   ∧ heap (snd (set (fst (flagg opts)) (FlagName "a" (VBool true))
                  sampleWorld))
     = heap sampleWorld
   ∧ fst (getDefault (fst (flagg opts)) "a" sampleWorld)
     = Ok (defaultOf boolFlag))
  ∧ (fst (get (fst (flagg opts')) "a" sampleWorld) = Throw TypeError
     ∧ fst (set (fst (flagg opts')) (FlagName "a" (VBool true)) sampleWorld)
       = Ok tt
     ∧ console (snd (set (fst (flagg opts')) (FlagName "a" (VBool true))
                       sampleWorld))
       = (console sampleWorld ++ [ReadOnlyStorage "toString"])%list).
Proof.
  intros opts d opts'. split.
  - destruct (no_storage_defined_flag_throws opts sampleWorld "a" boolFlag
                (VBool true))
      as (Hget & Hon & Hset & _ & Hheap & _ & Hdef);
      [reflexivity|reflexivity|discriminate|].
    by split_and!.
  - destruct (no_storage_defined_flag_throws opts' sampleWorld "a" d
                (VBool true))
      as (Hget & _ & Hset & Hcons & _);
      [reflexivity|reflexivity|discriminate|].
    split; [done|]. split; [done|]. by apply Hcons.
Defined.
(* ===================================================================== *)
(** ** The comparison with the default *)
(* ===================================================================== *)

Lemma unquote_quoteJSONChar c rest :
  unquoteJSONChar (quoteJSONChar c ++ rest) = Some (c, rest).
Proof. destruct c as [[] [] [] [] [] [] [] []]; reflexivity. Qed.

Lemma quoteJSONChar_not_dquote c rest t :
  quoteJSONChar c ++ rest ≠ String dquote t.
Proof. destruct c as [[] [] [] [] [] [] [] []]; discriminate. Qed.

Lemma string_app_assoc (a b c : string) : (a ++ b) ++ c = a ++ (b ++ c).
Proof.
  induction a as [|x a IH]; [done|].
  change (String x ((a ++ b) ++ c) = String x (a ++ (b ++ c))).
  by rewrite IH.
Qed.

Lemma string_app_nil_l (a : string) : "" ++ a = a.
Proof. reflexivity. Qed.

Lemma quoteJSONBody_inj s1 s2 t1 t2 :
  quoteJSONBody s1 ++ String dquote t1 = quoteJSONBody s2 ++ String dquote t2 →
  s1 = s2.
Proof.
  revert s2. induction s1 as [|c1 r1 IH]; intros [|c2 r2];
    cbn [quoteJSONBody]; rewrite ?string_app_nil_l.
  - done.
  - rewrite string_app_assoc. intros H. symmetry in H.
    by apply quoteJSONChar_not_dquote in H.
  - rewrite string_app_assoc. intros H.
    by apply quoteJSONChar_not_dquote in H.
  - rewrite !string_app_assoc. intros H.
    apply (f_equal unquoteJSONChar) in H.
    rewrite !unquote_quoteJSONChar in H. injection H as -> H.
    f_equal. by apply IH.
Qed.

Lemma quoteJSONString_inj s1 s2 :
  quoteJSONString s1 = quoteJSONString s2 → s1 = s2.
Proof.
  unfold quoteJSONString. intros [= H]. by eapply quoteJSONBody_inj.
Qed.

Lemma quoteJSONString_not_keyword s :
  quoteJSONString s ≠ "null" ∧ quoteJSONString s ≠ "true"
  ∧ quoteJSONString s ≠ "false".
Proof. unfold quoteJSONString. split_and!; discriminate. Qed.

Lemma JSON_stringify_inj a b : JSON_stringify a = JSON_stringify b → a = b.
Proof.
  destruct (quoteJSONString_not_keyword
              (match a with VStr s => s | _ => "" end)) as (N1 & N2 & N3).
  destruct (quoteJSONString_not_keyword
              (match b with VStr s => s | _ => "" end)) as (K1 & K2 & K3).
  destruct a as [| |[]|s1], b as [| |[]|s2]; simpl; intros H;
    try done; try (injection H as H; congruence).
  f_equal. apply quoteJSONString_inj. congruence.
Qed.

(** X12: the comparison of [setFlagValue] is strict equality. On the
    values a flag can take (and on [undefined]), two values have the same
    [JSON.stringify] text exactly when they are the same value: no
    boolean, [null] or string is confused with another one, whatever
    characters the strings contain. *)
Theorem sameJSON_is_strict_equality (a b : JsVal) :
  sameJSON a b = strictEq a b.
Proof.
  unfold sameJSON, strictEq. apply bool_decide_ext. split.
  - apply JSON_stringify_inj.
  - by intros ->.
Qed.

(** X13: which storage method a write calls. For a defined flag on a
    storage with both [set] and [remove] (that do not throw),
    [set(flag, value)] with a value other than [undefined] returns
    normally and makes exactly one storage call: [remove(flag)] when the
    value is the default, [set(flag, value)] otherwise. *)
Theorem set_calls_remove_iff_default
  (f : Flagg) (w : World) (flagName : string) (value dflt : JsVal)
  (i : nat) (s : Storage.t) :
  fst (getDefault f flagName w) = Ok dflt →
  fst (resolveFlagStorage (getFlagDef (definitions f) flagName)
         (storageMap f) w) = Ok (StorageObject i) →
  heap w !! i = Some s →
  Storage.has_set s = true →
  Storage.has_remove s = true →
  Storage.faulty s flagName = false →
  value ≠ VUndefined →
  ∃ w', set f (FlagName flagName value) w = (Ok tt, w')
    ∧ calls w'
      = (calls w ++ [if strictEq value dflt then CallRemove i flagName
                     else CallSet i flagName value])%list.
Proof.
  intros Hdf Hres Hh Hset Hrem Hok Hv.
  apply getDefault_fst in Hdf as (d & Hd & ->).
  rewrite Hd in Hres. apply resolveFlagStorage_fst in Hres.
  unfold set, strictEq. rewrite bool_decide_eq_false_2 by done.
  unfold negb.
  destruct (sameJSON value (defaultOf d)) eqn:Hj.
  - destruct (setFlagValue_remove _ _ _ _ _ _ value w Hd Hres Hh Hj Hrem Hok)
      as (w' & Hs' & _ & Hcalls & _).
    apply bool_decide_eq_true, JSON_stringify_inj in Hj.
    rewrite bool_decide_eq_true_2 by done. eauto.
  - destruct (setFlagValue_set _ _ _ _ _ _ value w Hd Hres Hh Hj Hset Hok)
      as (w' & Hs' & _ & Hcalls & _).
    apply sameJSON_false_neq in Hj.
    rewrite bool_decide_eq_false_2 by done. eauto.
Qed.

Lemma set_calls_remove_iff_default_witness :
  ∃ w', set sampleFlagg (FlagName "a" (VStr "false")) sampleWorld = (Ok tt, w')
    ∧ calls w'
      = (calls sampleWorld
         ++ [if strictEq (VStr "false") (VBool false) then CallRemove 0 "a"
             else CallSet 0 "a" (VStr "false")])%list.
Proof.
  apply (set_calls_remove_iff_default sampleFlagg sampleWorld "a"
           (VStr "false") (VBool false) 0 memA);
    try reflexivity; discriminate.
Defined.

(* ===================================================================== *)
(** ** The aggregate queries *)
(* ===================================================================== *)


Lemma isOverridden_of_get f name d w :
  getFlagDef (definitions f) name = Some d →
  isOverridden f name w
  = match get f name w with
    | (Ok v, w1) =>
        (Ok (if bool_decide (flagTypeSpec d = Boolean)
             then negb (eqb (truthy v) (truthy (defaultOf d)))
             else negb (strictEq v (defaultOf d))), w1)
    | (Throw e, w1) => (Throw e, w1)
    end.
Proof.
  intros Hd. unfold isOverridden. rewrite Hd. unfold bind at 1.
  rewrite getFlagType_some.
  destruct (bool_decide (flagTypeSpec d = Boolean)).
  - unfold isOn, getDefault, bind. rewrite Hd.
    by destruct (get f name w) as [[v|e] w1].
  - unfold getDefault, bind. rewrite Hd.
    by destruct (get f name w) as [[v|e] w1].
Qed.











(* ===================================================================== *)
(** ** Flags are independent *)
(* ===================================================================== *)

(** What [get] returns depends on the heap only through the shapes of
    the storages and the entry of the flag in each of them. *)
Lemma get_depends_on_entry f name w w' :
  (∀ j, shape <$> heap w' !! j = shape <$> heap w !! j) →
  (∀ j, (λ s, Storage.get s name) <$> heap w' !! j
        = (λ s, Storage.get s name) <$> heap w !! j) →
  fst (get f name w') = fst (get f name w).
Proof.
  intros Hshape Hentry. unfold get, getResolvedFlagValue.
  destruct (getFlagDef (definitions f) name) as [d|]; [|done].
  destruct (resolveFlagStorage_some d (storageMap f) w) as (w1 & Hr1 & Hs1 & _).
  destruct (resolveFlagStorage_some d (storageMap f) w')
    as (w2 & Hr2 & Hs2 & _).
  unfold getFlagValue, bind. rewrite !getFlagDefaultValue_some, Hr1, Hr2.
  unfold storage_get, bind, deref.
  rewrite (sbc_heap _ _ Hs1), (sbc_heap _ _ Hs2).
  rewrite (resolvedStorage_shape (heap w) (heap w') _ _ Hshape).
  destruct (resolvedStorage (heap w) d (storageMap f)) as [|i|n|x];
    try done.
  specialize (Hentry i).
  destruct (heap w' !! i) as [s'|], (heap w !! i) as [s|];
    simpl in Hentry |- *; try done.
  injection Hentry as ->. by destruct (isNullish _).
Qed.

Lemma touchesOnly_entry T (K : string → Prop) w w' name :
  touchesOnly T K w w' → ¬ K name →
  ∀ j, (λ s, Storage.get s name) <$> heap w' !! j
       = (λ s, Storage.get s name) <$> heap w !! j.
Proof.
  intros [Hlen Hst] HK j.
  destruct (heap w !! j) as [s|] eqn:Hj.
  - destruct (Hst j s Hj) as (s' & -> & Hs & _). simpl.
    unfold Storage.get. by rewrite (ssb_contents _ _ _ Hs name HK).
  - apply lookup_ge_None in Hj. rewrite <- Hlen in Hj.
    apply lookup_ge_None in Hj. by rewrite Hj.
Qed.

Lemma touchesOnly_shape T (K : string → Prop) w w' :
  touchesOnly T K w w' →
  ∀ j, shape <$> heap w' !! j = shape <$> heap w !! j.
Proof.
  intros [Hlen Hst] j.
  destruct (heap w !! j) as [s|] eqn:Hj.
  - destruct (Hst j s Hj) as (s' & -> & Hs & _). simpl. unfold shape.
    by rewrite (ssb_name _ _ _ Hs), (ssb_has_set _ _ _ Hs),
      (ssb_has_remove _ _ _ Hs).
  - apply lookup_ge_None in Hj. rewrite <- Hlen in Hj.
    apply lookup_ge_None in Hj. by rewrite Hj.
Qed.

(** X16: writing some flags does not change what the others resolve
    to. Whatever a call of [set] does (return or throw), for every flag
    name it was not given, [get], [isOn] and [isOverridden] give the same
    result after it as before. *)
Theorem set_leaves_other_flags_alone
  (f : Flagg) (arg : SetArg) (w w' : World) (r : Result unit)
  (other : string) :
  set f arg w = (r, w') →
  other ∉ namesOf arg →
  fst (get f other w') = fst (get f other w)
  ∧ fst (isOn f other w') = fst (isOn f other w)
  ∧ fst (isOverridden f other w') = fst (isOverridden f other w).
Proof.
  intros Hset Hother.
  apply writes_set in Hset.
  pose proof (touchesOnly_entry _ _ _ _ other Hset Hother) as Hentry.
  pose proof (get_depends_on_entry f other w w'
                (touchesOnly_shape _ _ _ _ Hset) Hentry) as Hget.
  split_and!; [done| |].
  - unfold isOn, bind.
    destruct (get f other w') as [[v'|e'] w1'], (get f other w) as [[v|e] w1];
      by simplify_eq/=.
  - destruct (getFlagDef (definitions f) other) as [d|] eqn:Hd.
    + rewrite !(isOverridden_of_get f other d) by done.
      destruct (get f other w') as [[v'|e'] w1'],
               (get f other w) as [[v|e] w1];
        by simplify_eq/=.
    + unfold isOverridden. by rewrite Hd.
Qed.

Lemma set_leaves_other_flags_alone_witness :
  let w' := snd (set flakyFlagg (FlagName "b" (VBool true)) flakyWorld) in
  fst (get flakyFlagg "a" w') = fst (get flakyFlagg "a" flakyWorld)
  ∧ fst (isOn flakyFlagg "a" w') = fst (isOn flakyFlagg "a" flakyWorld)
  ∧ fst (isOverridden flakyFlagg "a" w')
    = fst (isOverridden flakyFlagg "a" flakyWorld).
Proof.
  apply (set_leaves_other_flags_alone flakyFlagg
           (FlagName "b" (VBool true)) flakyWorld _ (Ok tt) "a").
  - reflexivity.
  - simpl. intros H%list_elem_of_singleton. discriminate H.
Defined.

(** X17: the bulk form is the single-name form repeated. For a mapping
    none of whose values is [undefined], [set(mapping)] does exactly what
    calling [set(name, value)] for each entry in turn does, stopping at
    the first call that throws. *)
Theorem bulk_set_is_repeated_set
  (f : Flagg) (entries : list (string * JsVal)) (w : World) :
  Forall (λ e, snd e ≠ VUndefined) entries →
  set f (Flags entries) w
  = forEach entries (λ e, set f (FlagName (fst e) (snd e))) w.
Proof.
  intros Hall. revert w. simpl.
  induction Hall as [|e es He Hes IH]; intros w; [done|].
  simpl. unfold bind. unfold strictEq at 1.
  rewrite bool_decide_eq_false_2 by done. simpl.
  destruct (setFlagValue _ _ _ _ w) as [[[]|x] w1]; [|done].
  apply IH.
Qed.

Lemma bulk_set_is_repeated_set_witness :
  set flakyFlagg (Flags [("b", VBool true); ("a", VBool true)]) flakyWorld
  = forEach [("b", VBool true); ("a", VBool true)]
      (λ e, set flakyFlagg (FlagName (fst e) (snd e))) flakyWorld.
Proof.
  apply (bulk_set_is_repeated_set flakyFlagg
           [("b", VBool true); ("a", VBool true)] flakyWorld).
  repeat constructor; discriminate.
Defined.

(* ===================================================================== *)
(** ** Replacing the definitions *)
(* ===================================================================== *)


(* ===================================================================== *)
(** ** Named storages and the warnings of resolution *)
(* ===================================================================== *)

(** X19: a definition that names a supplied storage uses that storage.
    When the [storage] field is the name of a storage of the array (the
    last one with that name), resolution returns that storage and logs
    nothing, so the flag never falls back to the default storage. *)
Theorem named_storage_is_resolved
  (_storage : OneOrMany Storage.t) (d : FlagDefinition.t) (w : World)
  (j : nat) (s : Storage.t) :
  makeArray _storage !! j = Some s →
  (∀ j' s', j < j' → makeArray _storage !! j' = Some s' →
            Storage.name s' ≠ Storage.name s) →
  FlagDefinition.storage d = Some (Storage.name s) →
  resolveFlagStorage (Some d) (makeStorageMap _storage) w
  = (Ok (StorageObject j), w).
Proof.
  intros Hj Hlast Hd.
  assert (lookupStorage (heap w) (makeStorageMap _storage) (Storage.name s)
          = StorageObject j) as Hl.
  { apply lookupStorage_own. rewrite makeStorageMap_from.
    by rewrite (storageMapFrom_last _ _ j s Hj Hlast). }
  unfold resolveFlagStorage, property, readStorageMap, bind, ret.
  cbn [FlagDefinition.storage]. rewrite Hd. cbn [propertyKey].
  by rewrite Hl.
Qed.

Lemma named_storage_is_resolved_witness :
  resolveFlagStorage
    (Some (FlagDefinition.mk (VBool false) None (Some (Storage.name memB))))
    (makeStorageMap (Many [memA; memB])) sampleWorld
  = (Ok (StorageObject 1), sampleWorld).
Proof.
  apply (named_storage_is_resolved (Many [memA; memB]) _ sampleWorld 1 memB).
  - reflexivity.
  - intros j' s' Hlt Hj'. apply lookup_lt_Some in Hj'. simpl in Hj'. lia.
  - reflexivity.
Defined.

(** X20: what a read logs. [get] on a defined flag whose storage
    resolves writes to the console only when the definition names a
    storage and the storage map has nothing under that name: then each
    call logs the "not available" warning once more (the resolution is
    not cached); otherwise it logs nothing. *)
Theorem get_logs_unregistered_storage_each_time
  (f : Flagg) (w : World) (flagName : string) (d : FlagDefinition.t)
  (i : nat) (s : Storage.t) :
  getFlagDef (definitions f) flagName = Some d →
  fst (resolveFlagStorage (Some d) (storageMap f) w) = Ok (StorageObject i) →
  heap w !! i = Some s →
  ∃ v w', get f flagName w = (Ok v, w')
    ∧ console w'
      = (console w
         ++ match FlagDefinition.storage d with
            | Some n =>
                if truthyValue (lookupStorage (heap w) (storageMap f) n)
                then [] else [StorageNotAvailable n]
            | None => []
            end)%list
    ∧ ∃ w'', get f flagName w' = (Ok v, w'')
        ∧ console w''
          = (console w'
             ++ match FlagDefinition.storage d with
                | Some n =>
                    if truthyValue (lookupStorage (heap w) (storageMap f) n)
                    then [] else [StorageNotAvailable n]
                | None => []
                end)%list.
Proof.
  intros Hd Hres Hh. apply resolveFlagStorage_fst in Hres.
  assert (∀ w0, heap w0 = heap w →
    ∃ w', get f flagName w0
          = (Ok (if isNullish (Storage.get s flagName) then defaultOf d
                 else Storage.get s flagName), w')
      ∧ heap w' = heap w
      ∧ console w'
        = (console w0
           ++ match FlagDefinition.storage d with
              | Some n =>
                  if truthyValue (lookupStorage (heap w) (storageMap f) n)
                  then [] else [StorageNotAvailable n]
              | None => []
              end)%list) as Hone.
  { intros w0 Hw0.
    destruct (resolveFlagStorage_some d (storageMap f) w0)
      as (w1 & Hr & Hs & Hc).
    rewrite Hw0 in Hr, Hc.
    exists w1. split_and!.
    - unfold get, getResolvedFlagValue. rewrite Hd.
      unfold bind at 1. rewrite getFlagDefaultValue_some.
      unfold bind at 1. unfold getFlagValue, bind at 1. rewrite Hr, Hres.
      rewrite (storage_get_some i s)
        by (by rewrite (sbc_heap _ _ Hs), Hw0).
      by destruct (isNullish _).
    - by rewrite (sbc_heap _ _ Hs).
    - by rewrite Hc. }
  destruct (Hone w eq_refl) as (w' & Hget & Hheap & Hcons).
  destruct (Hone w' Hheap) as (w'' & Hget' & _ & Hcons').
  eauto 10.
Qed.

Lemma get_logs_unregistered_storage_each_time_witness :
  let f := fst (flagg (optsA {[ "a" := strayFlag ]})) in
  let w := snd (flagg (optsA {[ "a" := strayFlag ]})) in
  ∃ v w', get f "a" w = (Ok v, w')
    ∧ console w'
      = (console w
         ++ match FlagDefinition.storage strayFlag with
            | Some n =>
                if truthyValue (lookupStorage (heap w) (storageMap f) n)
                then [] else [StorageNotAvailable n]
            | None => []
            end)%list
    ∧ ∃ w'', get f "a" w' = (Ok v, w'')
        ∧ console w''
          = (console w'
             ++ match FlagDefinition.storage strayFlag with
                | Some n =>
                    if truthyValue (lookupStorage (heap w) (storageMap f) n)
                    then [] else [StorageNotAvailable n]
                | None => []
                end)%list.
Proof.
  apply (get_logs_unregistered_storage_each_time _ _ "a" strayFlag 0 memA);
    reflexivity.
Defined.

(* ===================================================================== *)
(** ** Hydrating a key without a definition *)
(* ===================================================================== *)

(** X21: a fetched mapping is applied only up to its first key without
    a definition. When the continuation of a fetch runs and the mapping
    holds, after entries that apply normally, a key under which the
    lookup of the definition finds nothing (no own definition in the
    registry and no member of [Object.prototype] of that name), the
    entries before it stay applied, the entries after it are dropped, and
    the [TypeError] is not propagated: it is left as an unhandled
    rejection, and the continuation is off the queue. *)
Theorem hydration_stops_at_undefined_key
  (f : Flagg) (w w1 : World) (before after : list (string * JsVal))
  (k : string) (v : JsVal) (rest : list Fetch) :
  microtasks w = Fulfilled (before ++ (k, v) :: after) :: rest →
  getFlagDef (definitions f) k = None →
  set f (Flags before)
    (mkWorld (heap w) (console w) (calls w) rest (unhandled w)) = (Ok tt, w1) →
  runMicrotask f w = unhandledRejection TypeError w1
  ∧ heap (runMicrotask f w) = heap w1
  ∧ calls (runMicrotask f w) = calls w1
  ∧ microtasks (runMicrotask f w) = rest
  ∧ unhandled (runMicrotask f w) = (unhandled w ++ [TypeError])%list.
Proof.
  intros Hq Hd Hbefore.
  assert (runMicrotask f w = unhandledRejection TypeError w1) as Hrun.
  { rewrite (runMicrotask_fulfilled f w _ rest Hq), set_Flags_app.
    unfold bind at 1. rewrite Hbefore, set_Flags_cons.
    unfold bind. by rewrite setFlagValue_unknown. }
  apply keepsQueue_set in Hbefore as [Hmt Hun].
  rewrite Hrun. simpl. by rewrite Hmt, Hun.
Qed.

Lemma hydration_stops_at_undefined_key_witness :
  let f := fst (flagg (FlaggOpts.mk (One memA) (Some {[ "a" := boolFlag ]})
                         (One (HydrationSource.mk "remote"
                                 (Fulfilled [("a", VBool true);
                                             ("x", VBool true);
                                             ("a", VBool false)]))))) in
  let w := snd (flagg (FlaggOpts.mk (One memA) (Some {[ "a" := boolFlag ]})
                         (One (HydrationSource.mk "remote"
                                 (Fulfilled [("a", VBool true);
                                             ("x", VBool true);
                                             ("a", VBool false)]))))) in
  runMicrotask f w = unhandledRejection TypeError overriddenWorld
  ∧ heap (runMicrotask f w) = heap overriddenWorld
  ∧ calls (runMicrotask f w) = calls overriddenWorld
  ∧ microtasks (runMicrotask f w) = []
  ∧ unhandled (runMicrotask f w) = (unhandled w ++ [TypeError])%list.
Proof.
  apply (hydration_stops_at_undefined_key _ _ overriddenWorld
           [("a", VBool true)] [("a", VBool false)] "x" (VBool true) []);
    reflexivity.
Defined.

(** A fetched key that is the name of a member of [Object.prototype]
    does not stop the mapping: the member is taken for a definition
    without default, the value is written to the default storage, and
    the entries after it are applied. *)
Example hydration_inherited_key_continues :
  let opts := FlaggOpts.mk (One memA) (Some {[ "a" := boolFlag ]})
                (One (HydrationSource.mk "remote"
                        (Fulfilled [("constructor", VBool true);
                                    ("a", VBool true)]))) in
  let f := fst (flagg opts) in
  let w := settle f (snd (flagg opts)) in
  definitions f !! "constructor" = None
  ∧ unhandled w = []
  ∧ calls w = [CallSet 0 "constructor" (VBool true); CallSet 0 "a" (VBool true)]
  ∧ fst (get f "constructor" w) = Ok (VBool true)
  ∧ fst (get f "a" w) = Ok (VBool true).
Proof. repeat split; reflexivity. Qed.
